(** * appstream-salario: the salary-bracket prediction page ([src/app.py])

    A shallow embedding of the Streamlit script and of the fragments of
    Python, pandas, Streamlit and MLflow it relies on, followed by the
    properties of the prediction pipeline.

    - Python [str] values are [string]s (UTF-8 bytes); [str.split] is defined
      on character lists and lifted.
    - Python [float] is IEEE 754 binary64, taken from the Standard Library's
      [SpecFloat] with [prec = 53] and [emax = 1024].
    - Exceptions and [st.stop()] are explicit results; what the script shows
      and logs, and each call to the predictor, is an event of a trace.
      Static text (headings, disclaimers, the footer), layout and the
      caches carry no data and are left out. *)

From Stdlib Require Import ZArith QArith Lia String Ascii DecimalString.
From Stdlib Require Import Floats.SpecFloat.
From Equations Require Import Equations.
From stdpp Require Import base list strings sorting.

(** ** [str.find] and [str.split] on character lists *)

Module PyStr.

Section split.
Context {A : Type} `{EqDecision A}.

(** [s.find(sub)]: index of the first occurrence of [sub] in [s]. *)
Fixpoint find (sub s : list A) : option nat :=
  if decide (sub `prefix_of` s) then Some 0
  else match s with
       | [] => None
       | _ :: s' => S <$> find sub s'
       end.

Lemma find_Some_bound sub s pos :
  find sub s = Some pos → pos + length sub ≤ length s.
Proof.
  revert pos. induction s as [|c s IH]; intros pos; simpl.
  - case_decide as Hp; [|done]. intros [= <-].
    apply prefix_length in Hp. simpl in *. lia.
  - case_decide as Hp.
    + intros [= <-]. apply prefix_length in Hp. simpl in *. lia.
    + destruct (find sub s) as [p|] eqn:E; simpl; [|done].
      intros [= <-]. specialize (IH p eq_refl). lia.
Qed.

Definition inspect {B} (b : B) : {b' | b = b'} := exist _ b eq_refl.

(** [s.split(sep)] for a non-empty [sep]: CPython scans left to right,
    cuts at the first occurrence found from the current position, and
    resumes right after it; the remainder is the last piece.  (The empty
    separator, for which Python raises [ValueError], is handled by
    [str_split] below.) *)
Equations? split (sep s : list A) : list (list A) by wf (length s) lt :=
  split nil s := [s];
  split (cons c sep') s with inspect (find (c :: sep') s) := {
    | exist _ None _ := [s];
    | exist _ (Some pos) Hf :=
        take pos s :: split (c :: sep') (drop (pos + S (length sep')) s) }.
Proof.
  apply find_Some_bound in Hf. simpl in Hf. rewrite length_drop. lia.
Qed.

(** [sub] occurs in [s] at index [i]. *)
Definition occ (sub s : list A) (i : nat) : Prop := sub `prefix_of` drop i s.

(** A separator is unbordered when none of its proper non-empty suffixes
    is also a prefix of it: two occurrences then never overlap. *)
Definition unbordered (sep : list A) : Prop :=
  ∀ k, 0 < k < length sep → drop k sep ≠ take (length sep - k) sep.

Lemma split_step sep s :
  sep ≠ [] →
  split sep s =
    match find sep s with
    | None => [s]
    | Some pos => take pos s :: split sep (drop (pos + length sep) s)
    end.
Proof.
  funelim (split sep s); intros Hne; [done|..].
  - rewrite Hf. reflexivity.
  - by rewrite e.
Qed.

Lemma occ_S sub c s i : occ sub (c :: s) (S i) ↔ occ sub s i.
Proof. done. Qed.

Lemma occ_bound sub s i : sub ≠ [] → occ sub s i → i + length sub ≤ length s.
Proof.
  intros Hne Ho. apply prefix_length in Ho. rewrite length_drop in Ho.
  destruct sub; [done|]. simpl in *. lia.
Qed.

Lemma occ_drop sub s k i : occ sub (drop k s) i ↔ occ sub s (k + i).
Proof. unfold occ. by rewrite drop_drop. Qed.

Lemma occ_app sub s i :
  sub ≠ [] →
  occ sub s i ↔ ∃ pre post, s = pre ++ sub ++ post ∧ length pre = i.
Proof.
  intros Hne. split.
  - intros Ho. pose proof (occ_bound _ _ _ Hne Ho) as Hb.
    destruct Ho as [post Hpost]. exists (take i s), post. split.
    + by rewrite <-Hpost, take_drop.
    + rewrite length_take. lia.
  - intros (pre & post & -> & <-). exists post.
    by rewrite drop_app_length.
Qed.

Lemma find_Some sub s i :
  find sub s = Some i → occ sub s i ∧ ∀ j, j < i → ¬ occ sub s j.
Proof.
  revert i. induction s as [|c s IH]; intros i; simpl.
  - case_decide as Hp; [|done]. intros [= <-]. split; [done|lia].
  - case_decide as Hp.
    + intros [= <-]. split; [done|lia].
    + destruct (find sub s) as [p|] eqn:E; simpl; [|done].
      intros [= <-]. destruct (IH p eq_refl) as [Ho Hlt]. split; [done|].
      intros [|j] Hj; [done|]. rewrite occ_S. apply Hlt. lia.
Qed.

Lemma find_None sub s : find sub s = None ↔ ∀ j, ¬ occ sub s j.
Proof.
  split.
  - induction s as [|c s IH]; simpl.
    + case_decide as Hp; [done|]. intros _ j. unfold occ. by rewrite drop_nil.
    + case_decide as Hp; [done|].
      destruct (find sub s) eqn:E; [done|]. intros _ [|j]; [done|].
      rewrite occ_S. by apply IH.
  - intros Hno. destruct (find sub s) as [i|] eqn:E; [|done].
    apply find_Some in E as [Ho _]. by apply Hno in Ho.
Qed.

(** The last piece, Python's [parts[-1]], always exists. *)
Lemma split_last_Some sep s : ∃ p, last (split sep s) = Some p.
Proof.
  destruct sep as [|c sep']; [by eexists; simp split|].
  rewrite split_step by done. destruct (find _ s); [|by eexists].
  rewrite last_cons. destruct (last _); by eexists.
Qed.

Lemma split_last_step sep s pos :
  sep ≠ [] → find sep s = Some pos →
  last (split sep s) = last (split sep (drop (pos + length sep) s)).
Proof.
  intros Hne Hf. rewrite (split_step sep s), Hf, last_cons by done.
  by destruct (split_last_Some sep (drop (pos + length sep) s)) as [p ->].
Qed.

Lemma split_last_none sep s :
  sep ≠ [] → find sep s = None → last (split sep s) = Some s.
Proof. intros Hne Hf. by rewrite split_step, Hf. Qed.

Lemma sep_length_pos (sep : list A) : sep ≠ [] → 0 < length sep.
Proof. destruct sep; [done|simpl; lia]. Qed.

(** The last piece holds no occurrence of the separator. *)
Lemma split_last_no_occ sep s p :
  sep ≠ [] → last (split sep s) = Some p → ∀ j, ¬ occ sep p j.
Proof.
  intros Hne. induction s as [s IH] using (induction_ltof1 _ (@length A)).
  unfold ltof in IH. destruct (find sep s) as [pos|] eqn:Hf.
  - rewrite (split_last_step _ _ _ Hne Hf). apply IH.
    apply find_Some_bound in Hf. apply sep_length_pos in Hne.
    rewrite length_drop. lia.
  - rewrite (split_last_none _ _ Hne Hf). intros [= <-]. by apply find_None.
Qed.

Lemma occ_no_overlap sep s i j :
  unbordered sep → occ sep s i → occ sep s j → i < j → i + length sep ≤ j.
Proof.
  intros Hunb [t1 Hi] [t2 Hj] Hlt.
  destruct (decide (i + length sep ≤ j)) as [|Hnle]; [done|exfalso].
  apply (Hunb (j - i)); [lia|].
  assert (drop (j - i) sep ++ t1 = sep ++ t2) as Heq.
  { rewrite <-Hj. replace j with (i + (j - i)) at 2 by lia.
    rewrite <-drop_drop, Hi, drop_app_le by lia. done. }
  apply (f_equal (take (length sep - (j - i)))) in Heq.
  rewrite take_app_length' in Heq by (rewrite length_drop; lia).
  rewrite take_app_le in Heq by lia. done.
Qed.

(** For an unbordered separator the last piece is what follows the last
    occurrence. *)
Lemma split_last_after_last sep s i :
  sep ≠ [] → unbordered sep →
  occ sep s i → (∀ j, occ sep s j → j ≤ i) →
  last (split sep s) = Some (drop (i + length sep) s).
Proof.
  intros Hne Hunb. revert i.
  induction s as [s IH] using (induction_ltof1 _ (@length A)).
  unfold ltof in IH. intros i Ho Hmax.
  destruct (find sep s) as [pos|] eqn:Hf; [|by eapply find_None in Hf].
  rewrite (split_last_step _ _ _ Hne Hf).
  pose proof (find_Some _ _ _ Hf) as [Hpos Hfirst].
  pose proof (find_Some_bound _ _ _ Hf) as Hb.
  pose proof (sep_length_pos _ Hne) as Hlen0.
  destruct (decide (i = pos)) as [->|Hne'].
  - rewrite split_last_none; [done..|].
    apply find_None. intros j Hj%occ_drop. apply Hmax in Hj. lia.
  - assert (pos < i) as Hlt.
    { destruct (decide (i < pos)) as [Hi|]; [by apply Hfirst in Hi|lia]. }
    pose proof (occ_no_overlap _ _ _ _ Hunb Hpos Ho Hlt) as Hge.
    assert (length (drop (pos + length sep) s) < length s) as Hlen
      by (rewrite length_drop; lia).
    rewrite (IH _ Hlen (i - (pos + length sep))).
    + rewrite drop_drop. do 2 f_equal. lia.
    + apply occ_drop.
      by replace (pos + length sep + (i - (pos + length sep))) with i by lia.
    + intros j Hj%occ_drop. apply Hmax in Hj. lia.
Qed.

(** Either the separator occurs, and the last piece follows its last
    occurrence, or it does not, and the last piece is the whole string. *)
Lemma split_last_cases sep s :
  sep ≠ [] → unbordered sep →
  ∃ p, last (split sep s) = Some p ∧
    ((∃ i, occ sep s i ∧ (∀ j, occ sep s j → j ≤ i) ∧
           p = drop (i + length sep) s)
     ∨ ((∀ j, ¬ occ sep s j) ∧ p = s)).
Proof.
  intros Hne Hunb. pose proof (sep_length_pos _ Hne) as Hlen0.
  induction s as [s IH] using (induction_ltof1 _ (@length A)).
  unfold ltof in IH. destruct (find sep s) as [pos|] eqn:Hf.
  - pose proof (find_Some _ _ _ Hf) as [Hpos Hfirst].
    pose proof (find_Some_bound _ _ _ Hf) as Hb.
    assert (∀ j, occ sep s j → j ≠ pos →
                 occ sep (drop (pos + length sep) s) (j - (pos + length sep))
                 ∧ pos + length sep ≤ j) as Hlater.
    { intros j Hj Hne'. assert (pos < j) as Hlt.
      { destruct (decide (j < pos)) as [Hi|]; [by apply Hfirst in Hi|lia]. }
      pose proof (occ_no_overlap _ _ _ _ Hunb Hpos Hj Hlt) as Hge.
      split; [|done]. apply occ_drop.
      by replace (pos + length sep + (j - (pos + length sep))) with j by lia. }
    destruct (IH (drop (pos + length sep) s)) as (p & Hp & Hcases).
    { rewrite length_drop. lia. }
    exists p. rewrite (split_last_step _ _ _ Hne Hf). split; [done|]. left.
    destruct Hcases as [(i & Hi & Hmax & ->)|[Hno ->]].
    + exists (pos + length sep + i). split; [by apply occ_drop|]. split.
      * intros j Hj. destruct (decide (j = pos)) as [->|Hne']; [lia|].
        destruct (Hlater j Hj Hne') as [Hj' Hge]. apply Hmax in Hj'. lia.
      * rewrite drop_drop. f_equal. lia.
    + exists pos. split; [done|]. split; [|done].
      intros j Hj. destruct (decide (j = pos)) as [->|Hne']; [lia|].
      destruct (Hlater j Hj Hne') as [Hj' _]. by apply Hno in Hj'.
  - exists s. rewrite (split_last_none _ _ Hne Hf). split; [done|]. right.
    split; [|done]. by apply find_None.
Qed.

(** The last piece is empty exactly for the empty string and for strings
    that end with the separator. *)
Lemma split_last_nil sep s :
  sep ≠ [] → unbordered sep →
  last (split sep s) = Some [] ↔ s = [] ∨ sep `suffix_of` s.
Proof.
  intros Hne Hunb. pose proof (sep_length_pos _ Hne) as Hlen0. split.
  - induction s as [s IH] using (induction_ltof1 _ (@length A)).
    unfold ltof in IH. destruct (find sep s) as [pos|] eqn:Hf.
    + rewrite (split_last_step _ _ _ Hne Hf). intros Hl. right.
      pose proof (find_Some _ _ _ Hf) as [[t Hpos] _].
      pose proof (find_Some_bound _ _ _ Hf) as Hb.
      apply IH in Hl as [Hnil|Hsuf]; [| |rewrite length_drop; lia].
      * exists (take pos s). rewrite <-(take_drop pos s) at 1. f_equal.
        rewrite Hpos. rewrite <-drop_drop, Hpos, drop_app_length in Hnil.
        by rewrite Hnil, app_nil_r.
      * etrans; [done|]. apply suffix_drop.
    + rewrite (split_last_none _ _ Hne Hf). intros [= ->]. by left.
  - intros [->|[pre ->]].
    + rewrite split_last_none; [done..|]. apply find_None. intros j Ho.
      apply occ_bound in Ho; [|done]. simpl in *; lia.
    + rewrite (split_last_after_last _ _ (length pre)); [|done..| |].
      * by rewrite drop_app_add, drop_all.
      * exists []. by rewrite drop_app_length, app_nil_r.
      * intros j Ho%occ_bound; [|done]. rewrite length_app in Ho. lia.
Qed.

End split.

End PyStr.

(** ** Python values, exceptions and the script's trace *)

(** A cell of a text column as [pandas.read_csv] yields it: a [str], or
    [NaN] where the file has no value. *)
Inductive cell : Type :=
  | NaN
  | Str (s : string).

(** What a widget hands back and what a cell of [user_data] holds. *)
Inductive value : Type :=
  | VNone
  | VInt (n : Z)
  | VCell (c : cell).

#[global] Instance cell_eq_dec : EqDecision cell.
Proof. solve_decision. Defined.

#[global] Instance value_eq_dec : EqDecision value.
Proof. solve_decision. Defined.

(** A one-row [DataFrame]: its columns, in order, each with the row's cell. *)
Abbreviation frame := (list (string * value)) (only parsing).

(** A bar of the optional chart. *)
Record bar : Type := Bar {
  bar_x : string;
  bar_y : Z;
  bar_marker_color : string;
  bar_text : string
}.

Definition figure : Type := list bar.

(** The exceptions of the script, all subclasses of [Exception].
    [LibraryError] stands for whatever MLflow, scikit-learn or pandas raise
    on their own account, by class name and message. *)
Inductive exn : Type :=
  | ZeroDivisionError
  | OverflowError
  | ValueError
  | IndexError
  | KeyError (missing : list string)
  | FileNotFoundError
  | StreamlitAPIException
  | LibraryError (cls msg : string).

Inductive metric_value : Type :=
  | MInt (n : Z)
  | MStr (s : string).

(** What the user and the log see, and the calls to the predictor. *)
Inductive event : Type :=
  | st_error (body : string)
  | st_info (body : string)
  | st_success (body : string)
  | st_metric (label : string) (v : metric_value)
  | st_plotly_chart (fig : figure)
  | logger_info (msg : string)
  | logger_error (msg : string)
  | model_predict (X : frame).

(** The result of a call: a value, or an exception. *)
Inductive res (A : Type) : Type :=
  | Ret (a : A)
  | Raise (e : exn).
Arguments Ret {A} a.
Arguments Raise {A} e.

#[global] Instance res_ret : MRet res := λ A a, Ret a.

#[global] Instance res_bind : MBind res := λ A B f r,
  match r with
  | Ret a => f a
  | Raise e => Raise e
  end.

(** How a piece of the script ends: it returns, it raises, or it calls
    [st.stop()], whose [StopException] derives from [BaseException] and so
    passes through [except Exception]. *)
Inductive ending (A : Type) : Type :=
  | Returned (a : A)
  | Raised (e : exn)
  | Stopped.
Arguments Returned {A} a.
Arguments Raised {A} e.
Arguments Stopped {A}.

(** A piece of the script: the events it emits and how it ends. *)
Definition M (A : Type) : Type := list event * ending A.

#[global] Instance M_ret : MRet M := λ A a, ([], Returned a).

#[global] Instance M_bind : MBind M := λ A B f m,
  match m with
  | (t, Returned a) => let '(t', r) := f a in (t ++ t', r)
  | (t, Raised e) => (t, Raised e)
  | (t, Stopped) => (t, Stopped)
  end.

Definition emit (ev : event) : M unit := ([ev], Returned tt).
Definition st_stop {A} : M A := ([], Stopped).

(** A call inside the script. *)
Definition lift {A} (r : res A) : M A :=
  match r with
  | Ret a => ([], Returned a)
  | Raise e => ([], Raised e)
  end.

(** [try: body except Exception as e: handler e]. *)
Definition try_except {A} (body : M A) (handler : exn → M A) : M A :=
  match body with
  | (t, Raised e) => let '(t', r) := handler e in (t ++ t', r)
  | returned_or_stopped => returned_or_stopped
  end.

Definition trace {A} (m : M A) : list event := fst m.
Definition outcome {A} (m : M A) : ending A := snd m.

(** [str(n)] for an [int]. *)
Definition str_of_int (n : Z) : string := NilZero.string_of_int (Z.to_int n).

(** [s.split(sep)]; the empty separator is a [ValueError]. *)
Definition str_split (sep s : string) : res (list string) :=
  match list_ascii_of_string sep with
  | [] => Raise ValueError
  | c :: sep' =>
      Ret (string_of_list_ascii <$>
             PyStr.split (c :: sep') (list_ascii_of_string s))
  end.

(** [l[-1]]. *)
Definition index_last {A} (l : list A) : res A :=
  match last l with
  | Some x => Ret x
  | None => Raise IndexError
  end.

(** [l[0]]. *)
Definition index_first {A} (l : list A) : res A :=
  match l with
  | x :: _ => Ret x
  | [] => Raise IndexError
  end.

(** [max(l)] on a list of [int]; the empty list is a [ValueError]. *)
Definition py_max (l : list Z) : res Z :=
  match l with
  | [] => Raise ValueError
  | x :: l' => Ret (foldl Z.max x l')
  end.

(** ** Python [float]: IEEE 754 binary64 *)

Module PyFloat.
Local Open Scope Z_scope.

Definition prec : Z := 53.
Definition emax : Z := 1024.

Definition float : Type := spec_float.

(** [float(n)] for an [int] that fits, as in [x * 100]. *)
Definition of_int (n : Z) : float := binary_normalize prec emax n 0 false.

(** [x * y] on floats. *)
Definition mul (x y : float) : float := SFmul prec emax x y.

(** The integer [p], signed by [s], as mantissa of an operand of [SFdiv]. *)
Definition int_as_float (s : bool) (p : positive) : float := S754_finite s p 0.

(** [a / b] on two [int]s: CPython's [long_true_divide] returns the float
    nearest to the exact quotient, raises [ZeroDivisionError] for a zero
    divisor and [OverflowError] when the quotient is too large.  [SFdiv]
    divides the two integers as they are and rounds once. *)
Definition int_truediv (a b : Z) : res float :=
  match a, b with
  | _, Z0 => Raise ZeroDivisionError
  | Z0, _ => Ret (S754_zero (b <? 0))
  | _, _ =>
      match SFdiv prec emax (int_as_float (a <? 0) (Z.to_pos (Z.abs a)))
                            (int_as_float (b <? 0) (Z.to_pos (Z.abs b))) with
      | S754_infinity _ => Raise OverflowError
      | q => Ret q
      end
  end.

(** The integer nearest to [n / d] for [0 < d], ties to the even one. *)
Definition round_half_even (n d : Z) : Z :=
  let q := n / d in
  match 2 * (n mod d) ?= d with
  | Lt => q
  | Gt => q + 1
  | Eq => if Z.even q then q else q + 1
  end.

(** Tenths in [x], rounded as [format(x, '.1f')] rounds: from the exact
    binary value, half to even. *)
Definition tenths (m : positive) (e : Z) : Z :=
  match e with
  | Zneg p => round_half_even (10 * Zpos m) (Zpos (2 ^ p))
  | _ => 10 * Zpos m * 2 ^ e
  end.

(** [format(x, '.1f')], the body of [f"{x:.1f}"]. *)
Definition format_1f (x : float) : string :=
  match x with
  | S754_nan => "nan"
  | S754_infinity s => if s then "-inf" else "inf"
  | S754_zero s => if s then "-0.0" else "0.0"
  | S754_finite s m e =>
      (if s then "-" else "") +:+ str_of_int (tenths m e / 10) +:+ "." +:+
      str_of_int (tenths m e mod 10)
  end.

(** The rational [m * 2 ^ e]. *)
Definition F2Q (m e : Z) : Q :=
  match e with
  | Zneg p => m # (2 ^ p)
  | _ => inject_Z (m * 2 ^ e)
  end.

(** The exact value of a finite float. *)
Definition to_Q (x : float) : option Q :=
  match x with
  | S754_zero _ => Some (inject_Z 0)
  | S754_finite s m e => Some (F2Q (cond_Zopp s (Zpos m)) e)
  | _ => None
  end.


(** Invariants of the rounding steps, for the bounds proved below.
    [below B e mrs]: the mantissa being shifted, read at exponent [e <= 0],
    does not exceed [B], and is strictly under it when bits were lost. *)
Definition inexact (mrs : shr_record) : bool := shr_r mrs || shr_s mrs.

Definition below (B e : Z) (mrs : shr_record) : Prop :=
  e ≤ 0 ∧ 0 ≤ shr_m mrs ∧ shr_m mrs ≤ B * 2 ^ (- e) ∧
  (inexact mrs = true → shr_m mrs < B * 2 ^ (- e)).

(** A finite non-negative float not above [B]. *)
Definition bounded_by (B : Z) (x : float) : Prop :=
  match x with
  | S754_zero false => True
  | S754_finite false m e => e ≤ 0 ∧ Zpos m ≤ B * 2 ^ (- e)
  | _ => False
  end.

(** The exact value [N / D], scaled to exponent [e], sits where the
    record says: on [m], strictly between [m] and the midpoint, on the
    midpoint, or strictly between the midpoint and [m + 1]. *)
Definition located (N D e : Z) (mrs : shr_record) : Prop :=
  (e ≤ 0 ∧ 0 ≤ shr_m mrs ∧
   match shr_r mrs, shr_s mrs with
   | false, false => N * 2 ^ (- e) = shr_m mrs * D
   | false, true =>
       2 * shr_m mrs * D < 2 * (N * 2 ^ (- e)) < (2 * shr_m mrs + 1) * D
   | true, false => 2 * (N * 2 ^ (- e)) = (2 * shr_m mrs + 1) * D
   | true, true =>
       (2 * shr_m mrs + 1) * D < 2 * (N * 2 ^ (- e)) < (2 * shr_m mrs + 2) * D
   end).

(** [m * 2 ^ e] is within [2 ^ (E - 1)] of [N / D]. *)
Definition near_at (N D E m e : Z) : Prop :=
  (e ≤ 0 ∧ 0 ≤ m ∧
   - (D * 2 ^ (- e)) ≤ 2 * 2 ^ (- E) * (m * D - N * 2 ^ (- e)) ≤ D * 2 ^ (- e)).

(** A finite non-negative float within [2 ^ (E - 1)] of [N / D]. *)
Definition near (N D E : Z) (x : float) : Prop :=
  match x with
  | S754_zero false => near_at N D E 0 0
  | S754_finite false m e => near_at N D E (Zpos m) e
  | _ => False
  end.

(** The mantissa has at most [k] digits. *)
Definition small (k : Z) (mrs : shr_record) : Prop :=
  (0 ≤ shr_m mrs < 2 ^ k).

(** A finite float within [eps] of the rational [r]. *)
Definition close_to (r eps : Q) (x : float) : Prop :=
  ∃ q, to_Q x = Some q ∧ (r - eps <= q)%Q ∧ (q <= r + eps)%Q.

(** [n] tenths is the number of tenths nearest to [q], the even one when
    [q] lies halfway between two. *)
Definition nearest_tenth (q : Q) (n : Z) : Prop :=
  (inject_Z n - (1 # 2) <= 10 * q)%Q ∧ (10 * q <= inject_Z n + (1 # 2))%Q ∧
  ((10 * q == inject_Z n + (1 # 2))%Q ∨ (10 * q == inject_Z n - (1 # 2))%Q →
   Z.even n = true).

End PyFloat.

(** ** pandas: the Reference Dataset and the one-row frame *)

Module Pandas.

(** A row of [data/template.csv], by the columns the script reads. *)
Record Row : Type := {
  idade : Z;
  genero : cell;
  pcd : cell;
  ufOndeMora : cell;
  cargoAtual : cell;
  nivel : cell;
  tempoDeExperienciaDados : cell;
  tempoDeExperienciaEmTi : cell
}.

Abbreviation DataFrame := (list Row) (only parsing).

(** [df["name"]]: the column as a Series. *)
Definition col {A} (f : Row → A) (df : DataFrame) : list A := f <$> df.

(** [len(df)]. *)
Definition len {A} (l : list A) : Z := Z.of_nat (length l).

(** One comparison of [series == v]: a string cell equals the same string
    and nothing else; [NaN] equals nothing, and nothing equals [None]. *)
Definition cell_eqb (c : cell) (v : value) : bool :=
  match c, v with
  | Str s, VCell (Str t) => bool_decide (s = t)
  | _, _ => false
  end.

(** [series == v], elementwise. *)
Definition series_eq (s : list cell) (v : value) : list bool :=
  (λ c, cell_eqb c v) <$> s.

(** [mask1 & mask2], elementwise. *)
Definition series_and (a b : list bool) : list bool := zip_with andb a b.

(** [df[mask]]: the rows at which the mask holds. *)
Fixpoint df_mask (df : DataFrame) (mask : list bool) : DataFrame :=
  match df, mask with
  | r :: df', b :: mask' =>
      if b then r :: df_mask df' mask' else df_mask df' mask'
  | _, _ => []
  end.

(** [series.unique()]: the distinct values, in order of first appearance. *)
Fixpoint unique_from (seen s : list cell) : list cell :=
  match s with
  | [] => []
  | c :: s' =>
      if decide (c ∈ seen) then unique_from seen s'
      else c :: unique_from (c :: seen) s'
  end.

Definition unique (s : list cell) : list cell := unique_from [] s.

(** The order of [sort_values()]: strings by code points, [NaN] last. *)
Definition cell_le (a b : cell) : Prop :=
  match a, b with
  | Str s, Str t => String.le s t
  | _, NaN => True
  | NaN, Str _ => False
  end.

#[global] Instance cell_le_dec : RelDecision cell_le.
Proof. intros [|s] [|t]; simpl; apply _. Defined.

(** [series.sort_values()]. *)
Definition sort_values (s : list cell) : list cell := merge_sort cell_le s.

(** [series.nunique()]: the number of distinct values, [NaN] apart. *)
Definition nunique (s : list cell) : Z :=
  len (unique (filter (λ c, c ≠ NaN) s)).

(** [series.min()] on an integer column; [None] is the [nan] of an empty
    one. *)
Definition series_min (s : list Z) : option Z :=
  match s with
  | [] => None
  | x :: s' => Some (foldl Z.min x s')
  end.

(** [int(x)] on the result of [min()]: [int(nan)] is a [ValueError]. *)
Definition int_of_min (x : option Z) : res Z :=
  match x with
  | Some n => Ret n
  | None => Raise ValueError
  end.

(** The cell of column [name]. *)
Fixpoint frame_get (name : string) (df : frame) : option value :=
  match df with
  | [] => None
  | (k, v) :: df' => if decide (k = name) then Some v else frame_get name df'
  end.

(** [df[names]]: the columns [names], in that order; a name that is no
    column raises [KeyError] with the names not found. *)
Definition df_select (df : frame) (names : list string) : res frame :=
  match filter (λ n, frame_get n df = None) names with
  | [] => Ret ((λ n, (n, default VNone (frame_get n df))) <$> names)
  | missing => Raise (KeyError missing)
  end.

End Pandas.

(** ** Streamlit widgets *)

Module Streamlit.
Local Open Scope Z_scope.

(** [st.number_input(label, min_value, max_value, value)].  Modelled from
    the widget's documentation: a default outside the permitted range is
    refused with [StreamlitAPIException]; otherwise the widget returns the
    default until the user enters a number, and accepts an entry only
    within [min_value .. max_value]. *)
Definition number_input (min_value max_value value : Z) (entered : option Z)
    : res Z :=
  if (value <? min_value) || (max_value <? value) then
    Raise StreamlitAPIException
  else
    Ret (match entered with
         | Some v =>
             if (min_value <=? v) && (v <=? max_value) then v else value
         | None => value
         end).

(** [st.selectbox(label, options)]: the option at the position the user
    picked, which is [0] until they pick; [None] when there is no option
    there, as for an empty list of options. *)
Definition selectbox (options : list cell) (picked : nat) : value :=
  match options !! picked with
  | Some c => VCell c
  | None => VNone
  end.

End Streamlit.

(** ** MLflow's model registry *)

Module MLflow.

(** A registered version; [version] is its number, what [int(i.version)]
    reads. *)
Record ModelVersion : Type := { version : Z }.

Record RegisteredModel : Type := {
  name : string;
  latest_versions : list ModelVersion
}.

(** A loaded scikit-learn model: its declared input columns and
    [predict], which returns one label per row or raises. *)
Record Predictor : Type := {
  feature_names_in_ : list string;
  predict : frame → res (list string)
}.

(** The registry as the script sees it: the answers of
    [mlflow.search_registered_models()] and of
    [mlflow.sklearn.load_model(uri)]. *)
Record Registry : Type := {
  search_registered_models : res (list RegisteredModel);
  sklearn_load_model : string → res Predictor
}.

End MLflow.

(** ** The script *)

Import Pandas Streamlit MLflow PyFloat.

(** What the form holds when the script runs: the age typed in, if any,
    the position picked in each select box, whether the button was
    pressed and whether the chart box is ticked. *)
Record FormInput : Type := {
  in_idade : option Z;
  in_genero : nat;
  in_pcd : nat;
  in_uf : nat;
  in_cargo : nat;
  in_nivel : nat;
  in_tempo_exp_dados : nat;
  in_tempo_exp_ti : nat;
  in_submitted : bool;
  in_show_visual : bool
}.

(** The values of the form's widgets: the submitted profile. *)
Record Profile : Type := {
  p_idade : Z;
  p_genero : value;
  p_pcd : value;
  p_uf : value;
  p_cargo : value;
  p_nivel : value;
  p_tempo_exp_dados : value;
  p_tempo_exp_ti : value
}.

(** The options of the seven select boxes (lines 140-191). *)
Definition generos (data_template : DataFrame) : list cell :=
  unique (col genero data_template).
Definition pcds (data_template : DataFrame) : list cell :=
  unique (col pcd data_template).
Definition ufs (data_template : DataFrame) : list cell :=
  unique (sort_values (col ufOndeMora data_template)).
Definition cargos (data_template : DataFrame) : list cell :=
  unique (sort_values (col cargoAtual data_template)).
Definition niveis (data_template : DataFrame) : list cell :=
  unique (sort_values (col nivel data_template)).
Definition temp_dados (data_template : DataFrame) : list cell :=
  unique (sort_values (col tempoDeExperienciaDados data_template)).
Definition temp_ti (data_template : DataFrame) : list cell :=
  unique (sort_values (col tempoDeExperienciaEmTi data_template)).

(** The age widget (lines 132-138). *)
Definition idade_input (data_template : DataFrame) (entered : option Z)
    : res Z :=
  min_value ← int_of_min (series_min (col idade data_template));
  number_input min_value 100 30 entered.

(** The form (lines 124-198): builds the widgets and reads them. *)
Definition salary_prediction_form (data_template : DataFrame)
    (inp : FormInput) : res Profile :=
  idade ← idade_input data_template (in_idade inp);
  mret {|
    p_idade := idade;
    p_genero := selectbox (generos data_template) (in_genero inp);
    p_pcd := selectbox (pcds data_template) (in_pcd inp);
    p_uf := selectbox (ufs data_template) (in_uf inp);
    p_cargo := selectbox (cargos data_template) (in_cargo inp);
    p_nivel := selectbox (niveis data_template) (in_nivel inp);
    p_tempo_exp_dados :=
      selectbox (temp_dados data_template) (in_tempo_exp_dados inp);
    p_tempo_exp_ti := selectbox (temp_ti data_template) (in_tempo_exp_ti inp)
  |}.

(** The single-row feature record (lines 204-213). *)
Definition user_data (p : Profile) : frame :=
  [ ("idade", VInt (p_idade p));
    ("genero", p_genero p);
    ("pcd", p_pcd p);
    ("ufOndeMora", p_uf p);
    ("cargoAtual", p_cargo p);
    ("nivel", p_nivel p);
    ("tempoDeExperienciaDados", p_tempo_exp_dados p);
    ("tempoDeExperienciaEmTi", p_tempo_exp_ti p) ].

(** Line 218: [salario_pred.split("- ")[-1]]. *)
Definition salario_limpo (salario_pred : string) : res string :=
  parts ← str_split "- " salario_pred;
  index_last parts.

(** Lines 217-218: select the model's columns, predict, keep the label of
    the only row and cut it.  The call to [predict] is recorded in the
    trace. *)
Definition predict_bracket (model : Predictor) (p : Profile) : M string :=
  X ← lift (df_select (user_data p) (feature_names_in_ model));
  _ ← emit (model_predict X);
  preds ← lift (predict model X);
  salario_pred ← lift (index_first preds);
  lift (salario_limpo salario_pred).

(** Lines 252-255: the rows with the profile's seniority and state. *)
Definition similar_profiles (data_template : DataFrame) (nivel uf : value)
    : DataFrame :=
  df_mask data_template
    (series_and (series_eq (col Pandas.nivel data_template) nivel)
                (series_eq (col ufOndeMora data_template) uf)).

Definition similar_count (data_template : DataFrame) (nivel uf : value) : Z :=
  len (similar_profiles data_template nivel uf).

(** Line 264. *)
Definition cargo_count (data_template : DataFrame) (cargo : value) : Z :=
  len (df_mask data_template (series_eq (col cargoAtual data_template) cargo)).

(** Line 265: [(cargo_count / len(data_template)) * 100]. *)
Definition cargo_percentage (data_template : DataFrame) (cargo : value)
    : res float :=
  share ← int_truediv (cargo_count data_template cargo) (len data_template);
  mret (mul share (of_int 100)).

(** Line 269: [f"{cargo_percentage:.1f}%"]. *)
Definition cargo_percentage_text (x : float) : string := format_1f x +:+ "%".

(** Lines 56-91: the chart of reference bands; the prediction does not
    enter it. *)
Definition salary_ranges : list (string * string) :=
  [ ("Júnior", "R$ 3.000 - R$ 6.000");
    ("Pleno", "R$ 6.000 - R$ 12.000");
    ("Sênior", "R$ 12.000 - R$ 20.000");
    ("Especialista", "R$ 20.000+") ].

Definition create_salary_visualization (predicted_salary : string) : figure :=
  let ranges := [6000; 12000; 20000; 30000]%Z in
  let colors := ["#ff9999"; "#66b3ff"; "#99ff99"; "#ffcc99"] in
  let labels := salary_ranges.*1 in
  (λ '(range_val, color, label),
     Bar label range_val color
       (default "" ((λ found, found.2.2)
                      <$> list_find (λ kv, kv.1 = label) salary_ranges)))
    <$> zip (zip ranges colors) labels.

Section App.

(** [str(e)], the text of an exception. *)
Variable exn_str : exn → string.

(** Lines 21-41. *)
Definition load_model (mlflow : Registry) : M (Predictor * Z) :=
  try_except
    (found ← lift (search_registered_models mlflow);
     match filter (λ i, name i = "salario-model") found with
     | [] =>
         _ ← emit (st_error "❌ Modelo 'salario-model' não encontrado no MLflow");
         st_stop
     | model0 :: _ =>
         last_version ← lift (py_max (version <$> latest_versions model0));
         model ← lift (sklearn_load_model mlflow
                         ("models:/salario-model/" +:+ str_of_int last_version));
         _ ← emit (logger_info ("Modelo carregado com sucesso - versão "
                                +:+ str_of_int last_version));
         mret (model, last_version)
     end)
    (λ e,
       _ ← emit (st_error ("❌ Erro ao carregar modelo: " +:+ exn_str e));
       _ ← emit (st_info
                   "💡 Verifique se o MLflow está rodando em http://127.0.0.1:5000");
       st_stop).

(** Lines 43-54; [read_csv] is what [pd.read_csv("data/template.csv")]
    gives. *)
Definition load_template_data (read_csv : res DataFrame) : M DataFrame :=
  try_except (lift read_csv)
    (λ e,
       match e with
       | FileNotFoundError =>
           _ ← emit (st_error "❌ Arquivo 'data/template.csv' não encontrado");
           st_stop
       | _ =>
           _ ← emit (st_error ("❌ Erro ao carregar dados: " +:+ exn_str e));
           st_stop
       end).

(** Lines 216-276, the body of the [try]. *)
Definition report_prediction (model : Predictor) (data_template : DataFrame)
    (p : Profile) (show_visual : bool) : M unit :=
  salario_limpo ← predict_bracket model p;
  _ ← emit (st_success
              ("### 💰 Sua faixa salarial estimada:  `" +:+ salario_limpo +:+ "`"));
  _ ← emit (st_metric "Perfis Similares na Base"
              (MInt (similar_count data_template (p_nivel p) (p_uf p))));
  cargo_percentage ← lift (cargo_percentage data_template (p_cargo p));
  _ ← emit (st_metric "Representatividade do Cargo"
              (MStr (cargo_percentage_text cargo_percentage)));
  if show_visual then
    emit (st_plotly_chart (create_salary_visualization salario_limpo))
  else mret tt.

(** Lines 215-280: the handler of a submission. *)
Definition on_submit (model : Predictor) (data_template : DataFrame)
    (p : Profile) (show_visual : bool) : M unit :=
  try_except (report_prediction model data_template p show_visual)
    (λ e,
       _ ← emit (st_error ("❌ Erro na predição: " +:+ exn_str e));
       emit (logger_error ("Erro na predição: " +:+ exn_str e))).

(** The sidebar (lines 107-121), without the date. *)
Definition sidebar (model_version : Z) (data_template : DataFrame) : M unit :=
  _ ← emit (st_info ("**Versão:** " +:+ str_of_int model_version));
  _ ← emit (st_metric "Total de Registros" (MInt (len data_template)));
  _ ← emit (st_metric "Cargos Únicos"
              (MInt (nunique (col cargoAtual data_template))));
  emit (st_metric "UFs Representadas"
          (MInt (nunique (col ufOndeMora data_template)))).

(** One run of the script, top to bottom. *)
Definition app_py (mlflow : Registry) (read_csv : res DataFrame)
    (inp : FormInput) : M unit :=
  '(model, model_version) ← load_model mlflow;
  data_template ← load_template_data read_csv;
  _ ← sidebar model_version data_template;
  profile ← lift (salary_prediction_form data_template inp);
  if in_submitted inp then
    on_submit model data_template profile (in_show_visual inp)
  else mret tt.

End App.

(** * Vocabulary of the statements *)

(** The separator of line 218, as characters. *)
Definition sep_chars : list ascii := list_ascii_of_string "- ".

(** [s] holds [sep] right after its first [i] characters. *)
Definition occurs_at (sep s : string) (i : nat) : Prop :=
  ∃ pre post, s = pre +:+ sep +:+ post ∧ String.length pre = i.

(** The spec's reading of line 218: [bracket] is what follows the last
    occurrence of [sep] in [label], or all of [label] when [sep] does not
    occur in it. *)
Definition text_after_last (sep label bracket : string) : Prop :=
  (∃ pre, label = pre +:+ sep +:+ bracket ∧
          ∀ i, occurs_at sep label i → i ≤ String.length pre)
  ∨ ((∀ i, ¬ occurs_at sep label i) ∧ bracket = label).

(** [c == v] holds: the cell has a value, and it is [v]. *)
Definition py_eq (c : cell) (v : value) : Prop := c ≠ NaN ∧ v = VCell c.

#[global] Instance py_eq_dec c v : Decision (py_eq c v).
Proof. unfold py_eq. apply _. Defined.

Definition bracket_line (bracket : string) : string :=
  "### 💰 Sua faixa salarial estimada:  `" +:+ bracket +:+ "`".

Definition similar_metric (data : DataFrame) (p : Profile) : event :=
  st_metric "Perfis Similares na Base"
    (MInt (similar_count data (p_nivel p) (p_uf p))).

Definition share_metric (x : float) : event :=
  st_metric "Representatividade do Cargo" (MStr (cargo_percentage_text x)).

Definition error_lines (exn_str : exn → string) (e : exn) : list event :=
  [ st_error ("❌ Erro na predição: " +:+ exn_str e);
    logger_error ("Erro na predição: " +:+ exn_str e) ].

(** What the [except] clause of [load_model] shows. *)
Definition load_error_lines (exn_str : exn → string) (e : exn) : list event :=
  [ st_error ("❌ Erro ao carregar modelo: " +:+ exn_str e);
    st_info "💡 Verifique se o MLflow está rodando em http://127.0.0.1:5000" ].

(** The frames handed to [predict], in order. *)
Definition predict_calls (t : list event) : list (list (string * value)) :=
  omap (λ ev, match ev with model_predict X => Some X | _ => None end) t.

(** The seven select boxes: the options each presents and the column of
    the Reference Dataset it is meant to range over. *)
Definition select_boxes : list ((list Row → list cell) * (Row → cell)) :=
  [ (generos, genero);
    (pcds, pcd);
    (ufs, ufOndeMora);
    (cargos, cargoAtual);
    (niveis, nivel);
    (temp_dados, tempoDeExperienciaDados);
    (temp_ti, tempoDeExperienciaEmTi) ].


(** Strictly before, in the order of [sort_values()]. *)
Definition cell_lt (a b : cell) : Prop := cell_le a b ∧ a ≠ b.

(** [v] is a text, as the cells of the categorical columns are. *)
Definition is_text (v : value) : Prop := ∃ s, v = VCell (Str s).

(** The bracket lines and the logged prediction errors of a trace. *)
Definition shown_brackets (t : list event) : list string :=
  omap (λ ev, match ev with st_success s => Some s | _ => None end) t.

Definition logged_errors (t : list event) : list string :=
  omap (λ ev, match ev with logger_error s => Some s | _ => None end) t.

(** Events that say nothing of a prediction or of the job's share. *)
Definition quiet (ev : event) : Prop :=
  match ev with
  | model_predict _ | st_success _ | logger_error _ => False
  | st_metric label _ => label ≠ "Representatividade do Cargo"
  | _ => True
  end.

(** [sep.join(parts)], on character lists and on strings. *)
Fixpoint py_join {A} (sep : list A) (parts : list (list A)) : list A :=
  match parts with
  | [] => []
  | p :: ps => match ps with [] => p | _ => p ++ sep ++ py_join sep ps end
  end.

Fixpoint str_join (sep : string) (parts : list string) : string :=
  match parts with
  | [] => ""
  | p :: ps => match ps with [] => p | _ => p +:+ sep +:+ str_join sep ps end
  end.

(** ** Example inputs *)

(** Two rows of a Reference Dataset. *)
Definition ex_row : Row := {|
  idade := 25;
  genero := Str "Masculino";
  pcd := Str "Não";
  ufOndeMora := Str "SP";
  cargoAtual := Str "Data Engineer";
  nivel := Str "Pleno";
  tempoDeExperienciaDados := Str "de 1 a 2 anos";
  tempoDeExperienciaEmTi := Str "de 3 a 4 anos"
|}.

Definition ex_analyst_row : Row := {|
  idade := 41;
  genero := Str "Feminino";
  pcd := Str "Não";
  ufOndeMora := Str "MG";
  cargoAtual := Str "Data Analyst";
  nivel := Str "Sênior";
  tempoDeExperienciaDados := Str "de 5 a 6 anos";
  tempoDeExperienciaEmTi := Str "de 7 a 10 anos"
|}.

(** A Reference Dataset of a hundred rows, ten of them Data Engineers. *)
Definition ex_hundred_rows : list Row :=
  replicate 10 ex_row ++ replicate 90 ex_analyst_row.

(** A Reference Dataset of eighty rows, twenty-three of them Data
    Analysts; the form as it first renders picks that job. *)
Definition ex_eighty_rows : list Row :=
  replicate 23 ex_analyst_row ++ replicate 57 ex_row.

(** The form as it first renders, submitted untouched against the
    one-row dataset [[ex_row]], and the profile that submits. *)
Definition ex_input : FormInput := {|
  in_idade := None;
  in_genero := 0; in_pcd := 0; in_uf := 0; in_cargo := 0; in_nivel := 0;
  in_tempo_exp_dados := 0; in_tempo_exp_ti := 0;
  in_submitted := true;
  in_show_visual := false
|}.

Definition ex_profile : Profile := {|
  p_idade := 30;
  p_genero := VCell (Str "Masculino");
  p_pcd := VCell (Str "Não");
  p_uf := VCell (Str "SP");
  p_cargo := VCell (Str "Data Engineer");
  p_nivel := VCell (Str "Pleno");
  p_tempo_exp_dados := VCell (Str "de 1 a 2 anos");
  p_tempo_exp_ti := VCell (Str "de 3 a 4 anos")
|}.

Definition ex_columns : list string :=
  ["idade"; "genero"; "pcd"; "ufOndeMora"; "cargoAtual"; "nivel";
   "tempoDeExperienciaDados"; "tempoDeExperienciaEmTi"].

(** A predictor that reads every column and always answers [label]. *)
Definition constant_model (label : string) : Predictor := {|
  feature_names_in_ := ex_columns;
  predict := λ _, Ret [label]
|}.

(** A registry with two models; [salario-model] has versions 3, 7
    and 5, and loads at version 7. *)
Definition ex_registered : list RegisteredModel :=
  [ {| name := "churn-model"; latest_versions := [ {| version := 12 |} ] |};
    {| name := "salario-model";
       latest_versions :=
         [ {| version := 3 |}; {| version := 7 |}; {| version := 5 |} ] |} ].

Definition ex_registry : Registry := {|
  search_registered_models := Ret ex_registered;
  sklearn_load_model := λ uri,
    if decide (uri = "models:/salario-model/7")
    then Ret (constant_model "Faixa - R$ 6.000-12.000")
    else Raise (LibraryError "MlflowException" "RESOURCE_DOES_NOT_EXIST")
|}.

(** The same registry when the load call cannot reach the server. *)
Definition ex_unreachable_registry : Registry := {|
  search_registered_models := Ret ex_registered;
  sklearn_load_model := λ _,
    Raise (LibraryError "MlflowException" "connection refused")
|}.

(** * Lemmas *)

(** ** Strings and their character lists *)

Lemma chars_app (a b : string) :
  list_ascii_of_string (a +:+ b) = list_ascii_of_string a ++ list_ascii_of_string b.
Proof. induction a as [|c a IH]; simpl; [done|]. by rewrite IH. Qed.

Lemma chars_length (s : string) :
  length (list_ascii_of_string s) = String.length s.
Proof. induction s as [|c s IH]; simpl; [done|]. by rewrite IH. Qed.

Lemma chars_inj (a b : string) :
  list_ascii_of_string a = list_ascii_of_string b → a = b.
Proof.
  intros Heq. rewrite <-(string_of_list_ascii_of_string a),
    <-(string_of_list_ascii_of_string b). by rewrite Heq.
Qed.

Lemma of_chars_app (a b : list ascii) :
  string_of_list_ascii (a ++ b) = string_of_list_ascii a +:+ string_of_list_ascii b.
Proof. induction a as [|c a IH]; simpl; [done|]. by rewrite IH. Qed.

Lemma sep_chars_unbordered : PyStr.unbordered sep_chars.
Proof.
  intros k Hk. change (length sep_chars) with 2 in *.
  assert (k = 1) as -> by lia. done.
Qed.

Lemma sep_chars_ne : sep_chars ≠ [].
Proof. done. Qed.

Lemma occurs_at_occ (s : string) i :
  occurs_at "- " s i ↔ PyStr.occ sep_chars (list_ascii_of_string s) i.
Proof.
  rewrite PyStr.occ_app by done. split.
  - intros (pre & post & -> & <-).
    exists (list_ascii_of_string pre), (list_ascii_of_string post).
    by rewrite !chars_app, chars_length.
  - intros (pre & post & Heq & <-).
    exists (string_of_list_ascii pre), (string_of_list_ascii post). split.
    + apply chars_inj. by rewrite Heq, !chars_app, !list_ascii_of_string_of_list_ascii.
    + by rewrite <-chars_length, list_ascii_of_string_of_list_ascii.
Qed.

Lemma salario_limpo_last (s : string) :
  ∃ p, last (PyStr.split sep_chars (list_ascii_of_string s)) = Some p ∧
       salario_limpo s = Ret (string_of_list_ascii p).
Proof.
  destruct (PyStr.split_last_Some sep_chars (list_ascii_of_string s)) as [p Hp].
  exists p. split; [done|]. unfold salario_limpo, str_split, index_last.
  change (list_ascii_of_string "- ") with ["-"%char; " "%char].
  change sep_chars with ["-"%char; " "%char] in Hp. cbn [mbind res_bind].
  by rewrite fmap_last, Hp.
Qed.

Lemma drop_chars (s : string) i :
  s = string_of_list_ascii (take i (list_ascii_of_string s))
      +:+ string_of_list_ascii (drop i (list_ascii_of_string s)).
Proof.
  by rewrite <-of_chars_app, take_drop, string_of_list_ascii_of_string.
Qed.

Lemma salario_limpo_after_last (label : string) :
  ∃ bracket, salario_limpo label = Ret bracket ∧
             text_after_last "- " label bracket.
Proof.
  destruct (salario_limpo_last label) as (p & Hp & ->). eexists. split; [done|].
  destruct (PyStr.split_last_cases sep_chars (list_ascii_of_string label)
              sep_chars_ne sep_chars_unbordered) as (p' & Hp' & Hcases).
  rewrite Hp in Hp'. injection Hp' as <-.
  destruct Hcases as [(i & Hi & Hmax & ->)|[Hno ->]].
  - left. pose proof (PyStr.occ_bound _ _ _ sep_chars_ne Hi) as Hb.
    destruct Hi as [post Hpost].
    exists (string_of_list_ascii (take i (list_ascii_of_string label))). split.
    + rewrite (drop_chars label i) at 1. f_equal.
      rewrite <-drop_drop, Hpost, drop_app_length.
      by rewrite of_chars_app.
    + intros j Hj%occurs_at_occ. apply Hmax in Hj.
      rewrite <-chars_length, list_ascii_of_string_of_list_ascii, length_take. lia.
  - right. split; [|apply string_of_list_ascii_of_string].
    intros i Hi%occurs_at_occ. by apply Hno in Hi.
Qed.

(** What [text_after_last] says pins the bracket down. *)
Lemma text_after_last_unique (label b1 b2 : string) :
  text_after_last "- " label b1 → text_after_last "- " label b2 → b1 = b2.
Proof.
  intros [(pre1 & H1 & Hmax1)|[Hno1 ->]] [(pre2 & H2 & Hmax2)|[Hno2 ->]].
  - assert (String.length pre1 = String.length pre2) as Hlen.
    { apply Nat.le_antisymm; [apply Hmax2; by exists pre1, b1|apply Hmax1; by exists pre2, b2]. }
    rewrite H1 in H2. apply (f_equal list_ascii_of_string) in H2.
    rewrite !chars_app in H2. apply app_inj_1 in H2 as [_ H2]; [|by rewrite !chars_length].
    apply app_inv_head in H2. by apply chars_inj.
  - exfalso. apply (Hno2 (String.length pre1)). by exists pre1, b1.
  - exfalso. apply (Hno1 (String.length pre2)). by exists pre2, b2.
  - done.
Qed.

(** The label cut at line 218 never holds the separator, and it is empty
    exactly when the label is empty or ends with the separator. *)
Lemma salario_limpo_no_separator (label : string) :
  ∃ bracket, salario_limpo label = Ret bracket ∧
    (∀ i, ¬ occurs_at "- " bracket i) ∧
    (bracket = "" ↔ label = "" ∨ ∃ pre, label = pre +:+ "- ").
Proof.
  destruct (salario_limpo_last label) as (p & Hp & ->). eexists. split; [done|].
  split.
  - intros i Hi%occurs_at_occ.
    rewrite list_ascii_of_string_of_list_ascii in Hi.
    by eapply PyStr.split_last_no_occ in Hi.
  - assert (string_of_list_ascii p = "" ↔ p = []) as ->.
    { split; [|by intros ->]. intros Hnil%(f_equal list_ascii_of_string).
      by rewrite list_ascii_of_string_of_list_ascii in Hnil. }
    assert (p = [] ↔ last (PyStr.split sep_chars (list_ascii_of_string label))
                      = Some []) as ->.
    { rewrite Hp. split; [by intros ->|by intros [= ->]]. }
    rewrite (PyStr.split_last_nil _ _ sep_chars_ne sep_chars_unbordered).
    assert (list_ascii_of_string label = [] ↔ label = "") as ->.
    { split; [|by intros ->]. intros Hnil. apply chars_inj. by rewrite Hnil. }
    assert (sep_chars `suffix_of` list_ascii_of_string label
            ↔ ∃ pre, label = pre +:+ "- ") as ->; [|done].
    split.
    + intros [pre Hpre]. exists (string_of_list_ascii pre). apply chars_inj.
      by rewrite Hpre, chars_app, list_ascii_of_string_of_list_ascii.
    + intros [pre ->]. exists (list_ascii_of_string pre). by rewrite chars_app.
Qed.

(** ** Rounding keeps a bound that lies on the grid

    A quotient or product is first cut to a mantissa and an exponent
    ([SFdiv_core_binary], the exact product), then shifted right to the
    target precision and rounded to nearest ([binary_round_aux]).  When the
    exact value is at most [B], and [B] is a multiple of the unit in the
    last place, neither step can pass [B]. *)

Section float_bounds.
Local Open Scope Z_scope.

Lemma pow2_step e : e < 0 → 2 ^ (- e) = 2 * 2 ^ (- (e + 1)).
Proof. intros He. rewrite <-Z.pow_succ_r by lia. f_equal. lia. Qed.

Lemma shr_1_below B e mrs : e < 0 → below B e mrs → below B (e + 1) (shr_1 mrs).
Proof.
  intros He (_ & Hm0 & Hm & Hin). destruct mrs as [m r s]. simpl in *.
  unfold below, inexact in *. rewrite (pow2_step e He) in Hm, Hin.
  assert (0 < 2 ^ (- (e + 1))) by (apply Z.pow_pos_nonneg; lia).
  destruct m as [|[p|p|]|p]; simpl in *; try lia;
    (split; [lia|]); (split; [lia|]); (split; [nia|]); intros Hi;
    try nia; (assert (r || s = true) as Hrs%Hin by (by destruct r, s)); nia.
Qed.

Lemma iter_pos_below B p : ∀ e mrs,
  e + Zpos p ≤ 0 → below B e mrs → below B (e + Zpos p) (SpecFloat.iter_pos shr_1 p mrs).
Proof.
  induction p as [p IH|p IH|]; intros e mrs He Hb; simpl.
  - replace (e + Z.pos p~1) with (e + 1 + Z.pos p + Z.pos p) by lia.
    apply IH; [lia|]. apply IH; [lia|]. apply shr_1_below; [lia|done].
  - replace (e + Z.pos p~0) with (e + Z.pos p + Z.pos p) by lia.
    apply IH; [lia|]. apply IH; [lia|done].
  - apply shr_1_below; [lia|done].
Qed.

Lemma shr_below B mrs e n :
  below B e mrs → (0 < n → e + n ≤ 0) →
  below B (snd (shr mrs e n)) (fst (shr mrs e n)).
Proof.
  intros Hb Hn. destruct n as [|p|p]; simpl; [done| |done].
  apply iter_pos_below; [|done]. apply Hn. lia.
Qed.

Lemma digits2_pos_le p : ∀ k, Zpos p < 2 ^ k → Zpos (digits2_pos p) ≤ k.
Proof.
  induction p as [p IH|p IH|]; intros k Hk; simpl.
  - destruct (Z.le_gt_cases k 0) as [Hk0|Hk0].
    { assert (2 ^ k ≤ 2 ^ 0) by (destruct k; [simpl; lia|lia|by rewrite Z.pow_neg_r by lia]). simpl in *. lia. }
    rewrite Pos2Z.inj_succ. specialize (IH (k - 1)).
    replace k with (Z.succ (k - 1)) in Hk by lia. rewrite Z.pow_succ_r in Hk by lia. lia.
  - destruct (Z.le_gt_cases k 0) as [Hk0|Hk0].
    { assert (2 ^ k ≤ 2 ^ 0) by (destruct k; [simpl; lia|lia|by rewrite Z.pow_neg_r by lia]). simpl in *. lia. }
    rewrite Pos2Z.inj_succ. specialize (IH (k - 1)).
    replace k with (Z.succ (k - 1)) in Hk by lia. rewrite Z.pow_succ_r in Hk by lia. lia.
  - destruct (Z.le_gt_cases k 0) as [Hk0|Hk0]; [|lia].
    assert (2 ^ k ≤ 2 ^ 0) by (destruct k; [simpl; lia|lia|by rewrite Z.pow_neg_r by lia]). simpl in *. lia.
Qed.

Lemma Zdigits2_le m k : 0 ≤ k → 0 ≤ m < 2 ^ k → Zdigits2 m ≤ k.
Proof.
  intros Hk [Hm0 Hm]. destruct m as [|p|p]; simpl; [done| |lia].
  by apply digits2_pos_le.
Qed.

Lemma below_digits B k e m :
  0 ≤ k → B < 2 ^ k → e ≤ 0 → 0 ≤ m ≤ B * 2 ^ (- e) → Zdigits2 m + e ≤ k.
Proof.
  intros Hk HB He [Hm0 Hm].
  assert (Zdigits2 m ≤ k + - e); [|lia].
  apply Zdigits2_le; [lia|]. split; [done|].
  rewrite Z.pow_add_r by lia.
  assert (0 < 2 ^ (- e)) by (apply Z.pow_pos_nonneg; lia). nia.
Qed.

Lemma fexp_nonpos d : d ≤ prec → fexp prec emax d ≤ 0.
Proof. unfold fexp, emin, prec, emax. lia. Qed.

(** Truncating to the target precision keeps the bound. *)
Lemma shr_fexp_below B k m e l :
  0 ≤ k ≤ prec → B < 2 ^ k →
  below B e (shr_record_of_loc m l) →
  below B (snd (shr_fexp prec emax m e l)) (fst (shr_fexp prec emax m e l)).
Proof.
  intros Hk HB Hb. unfold shr_fexp. apply shr_below; [done|]. intros _.
  destruct Hb as (He & Hm0 & Hm & _).
  assert (shr_m (shr_record_of_loc m l) = m) as Hmm by (by destruct l as [|[]]).
  rewrite Hmm in *.
  pose proof (below_digits B k e m) as Hd.
  pose proof (fexp_nonpos (Zdigits2 m + e)). lia.
Qed.

Lemma round_nearest_even_below B e mrs :
  below B e mrs →
  below B e (shr_record_of_loc
               (round_nearest_even (shr_m mrs) (loc_of_shr_record mrs)) loc_Exact).
Proof.
  intros (He & Hm0 & Hm & Hin). destruct mrs as [m [] []]; simpl in *;
    unfold below, inexact in *; simpl in *;
    repeat split; try done; try lia;
    try (destruct (Z.even m)); try specialize (Hin eq_refl); lia.
Qed.

Lemma binary_round_aux_bounded B k m e l :
  0 ≤ k ≤ prec → B < 2 ^ k →
  below B e (shr_record_of_loc m l) →
  bounded_by B (binary_round_aux prec emax false m e l).
Proof.
  intros Hk HB Hb. unfold binary_round_aux.
  pose proof (shr_fexp_below B k m e l Hk HB Hb) as H1.
  destruct (shr_fexp prec emax m e l) as [mrs' e']. simpl in H1.
  apply round_nearest_even_below in H1.
  apply (shr_fexp_below B k) in H1; [|done..].
  destruct (shr_fexp prec emax _ e' loc_Exact) as [mrs'' e'']. simpl in H1.
  destruct H1 as (He & Hm0 & Hm & _).
  destruct (shr_m mrs'') as [|p|p]; simpl; [done| |lia].
  assert ((e'' <=? emax - prec) = true) as ->; [|done].
  apply Z.leb_le. unfold emax, prec. lia.
Qed.

Lemma inexact_of_loc m l : inexact (shr_record_of_loc m l) = true → l ≠ loc_Exact.
Proof. by destruct l. Qed.

Lemma shr_m_of_loc m l : shr_m (shr_record_of_loc m l) = m.
Proof. by destruct l as [|[]]. Qed.

Lemma new_location_0 n : new_location n 0 = loc_Exact.
Proof. unfold new_location. by destruct (Z.even n). Qed.

Lemma div_core_below a b :
  (a ≤ b)%positive →
  below 1 (snd (fst (SFdiv_core_binary prec emax (Zpos a) 0 (Zpos b) 0)))
    (shr_record_of_loc
       (fst (fst (SFdiv_core_binary prec emax (Zpos a) 0 (Zpos b) 0)))
       (snd (SFdiv_core_binary prec emax (Zpos a) 0 (Zpos b) 0))).
Proof.
  intros Hab. unfold SFdiv_core_binary.
  set (e' := Z.min _ _).
  assert (e' ≤ 0) as He by (unfold e'; lia).
  set (m' := match 0 - 0 - e' with Z0 => _ | Zpos _ => _ | Zneg _ => _ end).
  assert (m' = Zpos a * 2 ^ (- e')) as Hm'.
  { unfold m'. destruct e' as [| |p]; simpl; [lia..|].
    by rewrite Z.shiftl_mul_pow2 by lia. }
  pose proof (Z.div_eucl_eq m' (Zpos b) ltac:(lia)) as Heq.
  pose proof (Z.mod_pos_bound m' (Zpos b) ltac:(lia)) as Hr.
  unfold Z.modulo in Hr.
  destruct (Z.div_eucl m' (Z.pos b)) as [q r]. simpl.
  assert (0 < 2 ^ (- e')) by (apply Z.pow_pos_nonneg; lia).
  assert (Zpos a ≤ Zpos b) by lia.
  unfold below. rewrite shr_m_of_loc. repeat split; [done|nia|nia|].
  intros Hin%inexact_of_loc.
  assert (r ≠ 0) by (intros ->; by rewrite new_location_0 in Hin). nia.
Qed.

(** [a / b] for [0 < a ≤ b] is a finite float not above one. *)
Lemma div_bounded a b :
  (a ≤ b)%positive →
  bounded_by 1 (SFdiv prec emax (S754_finite false a 0) (S754_finite false b 0)).
Proof.
  intros Hab. pose proof (div_core_below a b Hab) as Hb. unfold SFdiv.
  destruct (SFdiv_core_binary prec emax (Z.pos a) 0 (Z.pos b) 0) as [[mz ez] lz].
  simpl in *. by apply (binary_round_aux_bounded 1 1).
Qed.

Lemma of_int_100 : of_int 100 = S754_finite false 7036874417766400 (-46).
Proof. reflexivity. Qed.

(** Scaling a float of [[0, 1]] by one hundred stays within [[0, 100]]. *)
Lemma mul_100_bounded x : bounded_by 1 x → bounded_by 100 (mul x (of_int 100)).
Proof.
  rewrite of_int_100. destruct x as [[]| | |[] m e]; simpl; try done.
  intros [He Hm]. apply (binary_round_aux_bounded 100 7); [done..|].
  unfold below. simpl.
  assert (0 < 2 ^ (- e)) by (apply Z.pow_pos_nonneg; lia).
  replace (- (e + -46)) with (46 + - e) by lia.
  rewrite Z.pow_add_r by lia. change (2 ^ 46) with 70368744177664.
  repeat split; [lia|lia|nia|done].
Qed.




(** The quotient of two counts, the first at most the second, is a float
    of [[0, 1]]: the division neither fails nor overflows. *)
Lemma int_truediv_bounded a b :
  0 ≤ a ≤ b → 0 < b → ∃ q, int_truediv a b = Ret q ∧ bounded_by 1 q.
Proof.
  intros [Ha Hab] Hb. destruct b as [|pb|pb]; [lia| |lia].
  destruct a as [|pa|pa]; [by eexists| |lia].
  pose proof (div_bounded pa pb ltac:(lia)) as Hq. unfold int_truediv.
  change (Z.pos pa <? 0) with false. change (Z.pos pb <? 0) with false.
  change (Z.to_pos (Z.abs (Z.pos pa))) with pa.
  change (Z.to_pos (Z.abs (Z.pos pb))) with pb. unfold int_as_float.
  destruct (SFdiv prec emax _ _) as [[]| | |[] m e]; try done; by eexists.
Qed.


End float_bounds.

(** ** Rounding to nearest stays within half a unit in the last place

    The same two steps, followed with the place of the exact value: the
    record of a shifted mantissa tells on which side of the midpoint the
    exact value lies, and rounding to nearest picks the mantissa at most
    half a unit away. *)

Section float_errors.
Local Open Scope Z_scope.

Lemma shr_1_located N D e mrs :
  0 < D → e < 0 → located N D e mrs → located N D (e + 1) (shr_1 mrs).
Proof.
  intros HD He (_ & Hm0 & Hloc). destruct mrs as [m r s]. simpl in *.
  unfold located. rewrite (pow2_step e He) in Hloc.
  generalize dependent (2 ^ (- (e + 1))). intros X Hloc.
  destruct m as [|[p|p|]|p]; [| | | |lia]; destruct r, s; simpl in *;
    (split; [lia|]); (split; [lia|]); lia.
Qed.

Lemma iter_pos_located N D p : 0 < D → ∀ e mrs,
  e + Zpos p ≤ 0 → located N D e mrs →
  located N D (e + Zpos p) (SpecFloat.iter_pos shr_1 p mrs).
Proof.
  intros HD. induction p as [p IH|p IH|]; intros e mrs He Hb; simpl.
  - replace (e + Z.pos p~1) with (e + 1 + Z.pos p + Z.pos p) by lia.
    apply IH; [lia|]. apply IH; [lia|]. apply shr_1_located; [done|lia|done].
  - replace (e + Z.pos p~0) with (e + Z.pos p + Z.pos p) by lia.
    apply IH; [lia|]. apply IH; [lia|done].
  - apply shr_1_located; [done|lia|done].
Qed.

Lemma shr_located N D mrs e n :
  0 < D → located N D e mrs → (0 < n → e + n ≤ 0) →
  located N D (snd (shr mrs e n)) (fst (shr mrs e n)).
Proof.
  intros HD Hb Hn. destruct n as [|p|p]; simpl; [done| |done].
  apply iter_pos_located; [done| |done]. apply Hn. lia.
Qed.

Lemma shr_1_small k mrs : 0 ≤ k → small (k + 1) mrs → small k (shr_1 mrs).
Proof.
  intros Hk. unfold small. destruct mrs as [m r s]. simpl.
  rewrite Z.pow_add_r by lia. change (2 ^ 1) with 2.
  destruct m as [|[p|p|]|p]; simpl; lia.
Qed.

Lemma iter_pos_small p : ∀ k mrs,
  0 ≤ k → small (k + Zpos p) mrs → small k (SpecFloat.iter_pos shr_1 p mrs).
Proof.
  induction p as [p IH|p IH|]; intros k mrs Hk Hs; simpl.
  - apply IH; [done|]. apply IH; [lia|]. apply shr_1_small; [lia|].
    by replace (k + Z.pos p + Z.pos p + 1) with (k + Z.pos p~1) by lia.
  - apply IH; [done|]. apply IH; [lia|].
    by replace (k + Z.pos p + Z.pos p) with (k + Z.pos p~0) by lia.
  - by apply shr_1_small.
Qed.

Lemma digits2_pos_lt p : Zpos p < 2 ^ Zpos (digits2_pos p).
Proof.
  induction p as [p IH|p IH|]; simpl; [| |done];
    rewrite Pos2Z.inj_succ, Z.pow_succ_r by lia; lia.
Qed.

Lemma Zdigits2_lt m : 0 ≤ m → m < 2 ^ Zdigits2 m.
Proof.
  destruct m as [|p|p]; simpl; [done| |lia]. intros _. apply digits2_pos_lt.
Qed.

Lemma small_le k k' mrs : k ≤ k' → 0 ≤ k → small k mrs → small k' mrs.
Proof.
  intros Hk Hk0 [Hm0 Hm]. split; [done|].
  pose proof (Z.pow_le_mono_r 2 k k' ltac:(lia) Hk). lia.
Qed.

(** After the cut to the target precision the mantissa fits [prec]
    digits and the exponent is no less than [emin]. *)
Lemma shr_fexp_small m e l :
  0 ≤ m →
  small prec (fst (shr_fexp prec emax m e l))
  ∧ emin prec emax ≤ snd (shr_fexp prec emax m e l).
Proof.
  intros Hm. unfold shr_fexp.
  pose proof (Zdigits2_lt m Hm) as Hd.
  assert (0 ≤ Zdigits2 m) as Hd0 by (destruct m; simpl; lia).
  assert (small (Zdigits2 m) (shr_record_of_loc m l)) as Hs
    by (unfold small; by rewrite shr_m_of_loc).
  unfold fexp, emin, prec, emax in *.
  destruct (Z.max (Zdigits2 m + e - 53) (3 - 1024 - 53) - e) as [|n|n] eqn:Hn;
    simpl.
  - split; [|lia]. apply (small_le (Zdigits2 m)); [lia|done..].
  - split; [|lia]. apply iter_pos_small; [done|].
    apply (small_le (Zdigits2 m)); [lia|done..].
  - split; [|lia]. apply (small_le (Zdigits2 m)); [lia|done..].
Qed.

(** A mantissa of at most [prec] digits, or [2 ^ prec] itself, is cut
    without loss. *)
Lemma shr_fexp_exact m e :
  0 ≤ m ≤ 2 ^ prec → emin prec emax ≤ e →
  ∃ m' e', shr_fexp prec emax m e loc_Exact =
             ({| shr_m := m'; shr_r := false; shr_s := false |}, e')
           ∧ e ≤ e' ∧ m = m' * 2 ^ (e' - e) ∧ 0 ≤ m'.
Proof.
  intros [Hm0 Hm] He. unfold shr_fexp.
  destruct (decide (m = 2 ^ prec)) as [->|Hne].
  - change (Zdigits2 (2 ^ prec)) with 54.
    assert (fexp prec emax (54 + e) - e = 1) as ->
      by (unfold fexp, emin, prec, emax in *; lia).
    eexists _, _. split; [reflexivity|]. split; [lia|].
    replace (e + 1 - e) with 1 by lia. by vm_compute.
  - assert (Zdigits2 m ≤ prec) as Hd by (apply Zdigits2_le; [done|lia]).
    assert (fexp prec emax (Zdigits2 m + e) - e ≤ 0) as Hn
      by (unfold fexp, emin, prec, emax in *; lia).
    exists m, e. split.
    + by destruct (fexp prec emax (Zdigits2 m + e) - e); [| lia |].
    + rewrite Z.sub_diag. split; [lia|]. split; lia.
Qed.

Lemma round_nearest_even_located N D e mrs :
  0 < D → located N D e mrs →
  let m := round_nearest_even (shr_m mrs) (loc_of_shr_record mrs) in
  shr_m mrs ≤ m ≤ shr_m mrs + 1 ∧
  - D ≤ 2 * (m * D - N * 2 ^ (- e)) ≤ D.
Proof.
  intros HD (He & Hm0 & Hloc). destruct mrs as [m [] []]; simpl in *;
    try destruct (Z.even m); split; lia.
Qed.

(** Rounding to nearest: the float returned is within half a unit of the
    last place, at the exponent it is rounded at, of the exact value. *)
Lemma binary_round_aux_near N D B k E m e l :
  0 < D → 0 ≤ k ≤ prec → B < 2 ^ k → e ≤ E → k - prec ≤ E → E ≤ 0 →
  below B e (shr_record_of_loc m l) →
  located N D e (shr_record_of_loc m l) →
  near N D E (binary_round_aux prec emax false m e l).
Proof.
  intros HD Hk HB HeE HkE HE Hb Hl. unfold binary_round_aux.
  assert (0 ≤ m) as Hm0 by (destruct Hb as (_ & Hm & _); by rewrite shr_m_of_loc in Hm).
  pose proof (shr_fexp_below B k m e l Hk HB Hb) as H1.
  pose proof (shr_fexp_small m e l Hm0) as [Hsm Hemin].
  assert (located N D (snd (shr_fexp prec emax m e l))
            (fst (shr_fexp prec emax m e l))) as Hl1.
  { unfold shr_fexp. apply shr_located; [done..|]. intros _.
    destruct Hb as (He & _ & Hm & _). rewrite shr_m_of_loc in Hm.
    pose proof (below_digits B k e m) as Hd.
    pose proof (fexp_nonpos (Zdigits2 m + e)). lia. }
  assert (snd (shr_fexp prec emax m e l) ≤ E) as HeE1.
  { unfold shr_fexp, shr.
    destruct Hb as (He & _ & Hm & _). rewrite shr_m_of_loc in Hm.
    pose proof (below_digits B k e m ltac:(lia) HB He ltac:(lia)) as Hd.
    destruct (fexp prec emax (Zdigits2 m + e) - e) as [|n|n] eqn:Hn; simpl;
      [done| |done].
    unfold fexp, emin, prec, emax in *. lia. }
  destruct (shr_fexp prec emax m e l) as [mrs' e']. simpl in *.
  pose proof (round_nearest_even_located N D e' mrs' HD Hl1) as [Hmr Herr].
  apply round_nearest_even_below in H1.
  apply (shr_fexp_below B k) in H1; [|done..].
  set (m1 := round_nearest_even (shr_m mrs') (loc_of_shr_record mrs')) in *.
  destruct (shr_fexp_exact m1 e') as (m2 & e2 & Hcut & He2 & Hm2 & Hm20).
  { destruct Hsm as [Hs0 Hs]. lia. }
  { done. }
  rewrite Hcut in *. simpl in *. destruct H1 as (He20 & _ & Hbound & _).
  assert (near_at N D E m2 e2) as Hnear.
  { unfold near_at. split; [done|]. split; [done|].
    destruct Hl1 as (He' & _).
    assert (2 ^ (- e') = 2 ^ (e2 - e') * 2 ^ (- e2)) as Hpow.
    { rewrite <-Z.pow_add_r by lia. f_equal. lia. }
    assert (2 ^ (- E) ≤ 2 ^ (- e')) as HEe
      by (apply Z.pow_le_mono_r; lia).
    assert (0 < 2 ^ (- E)) by (apply Z.pow_pos_nonneg; lia).
    assert (0 < 2 ^ (- e2)) by (apply Z.pow_pos_nonneg; lia).
    assert (0 < 2 ^ (e2 - e')) by (apply Z.pow_pos_nonneg; lia).
    rewrite Hm2, Hpow in Herr.
    set (P := 2 ^ (e2 - e')) in *. set (S2 := 2 ^ (- e2)) in *.
    set (SE := 2 ^ (- E)) in *.
    rewrite Hpow in HEe. fold P S2 in HEe.
    set (d := m2 * D - N * S2).
    assert (- D ≤ 2 * P * d ≤ D) as Hd by (unfold d; lia).
    assert (- (D * (P * S2)) ≤ 2 * P * d * SE ≤ D * (P * S2)) as Hd2 by nia.
    split; nia. }
  destruct m2 as [|p|p]; simpl; [| |lia].
  - destruct Hnear as (_ & _ & Hn). unfold near_at.
    assert (0 < 2 ^ (- e2)) by (apply Z.pow_pos_nonneg; lia).
    change (2 ^ (- 0)) with 1. split; [done|]. split; [done|].
    set (S2 := 2 ^ (- e2)) in *. set (SE := 2 ^ (- E)) in *.
    clearbody S2 SE. nia.
  - assert ((e2 <=? emax - prec) = true) as ->; [|done].
    apply Z.leb_le. unfold emax, prec. lia.
Qed.

End float_errors.

(** ** The share and its text, against the exact percentage *)

Section share_errors.
Local Open Scope Z_scope.

Lemma new_location_located a b q r :
  0 < b → 0 ≤ q → 0 ≤ r < b → a = b * q + r →
  located a b 0 (shr_record_of_loc q (new_location b r)).
Proof.
  intros Hb Hq Hr ->. unfold located. rewrite shr_m_of_loc.
  split; [done|]. split; [done|]. change (2 ^ (- 0)) with 1.
  unfold new_location, new_location_even, new_location_odd.
  destruct (Z.even b) eqn:Hev.
  - destruct (Z.eqb_spec r 0) as [->|Hr0]; simpl; [lia|].
    destruct (Z.compare_spec (2 * r) b); simpl; lia.
  - destruct (Z.eqb_spec r 0) as [->|Hr0]; simpl; [lia|].
    assert (2 * r ≠ b) as Hodd.
    { intros <-. by rewrite Z.even_mul in Hev. }
    destruct (Z.compare_spec (2 * r + 1) b); simpl; lia.
Qed.

Lemma located_scale N D mrs s :
  0 ≤ s → located (N * 2 ^ s) D 0 mrs → located N D (- s) mrs.
Proof.
  intros Hs (_ & Hm & Hloc). unfold located. rewrite Z.opp_involutive.
  change (2 ^ (- 0)) with 1 in Hloc. rewrite Z.mul_1_r in Hloc.
  split; [lia|]. by split.
Qed.

Lemma div_core_located a b :
  (a ≤ b)%positive →
  let '(q, e, l) := SFdiv_core_binary prec emax (Zpos a) 0 (Zpos b) 0 in
  located (Zpos a) (Zpos b) e (shr_record_of_loc q l) ∧ e ≤ - prec.
Proof.
  intros Hab. unfold SFdiv_core_binary.
  set (e' := Z.min _ _).
  assert (Zdigits2 (Zpos a) ≤ Zdigits2 (Zpos b)) as Hd.
  { apply Zdigits2_le; [simpl; lia|]. split; [lia|].
    pose proof (Zdigits2_lt (Zpos b) ltac:(lia)). lia. }
  assert (e' ≤ - prec) as He.
  { unfold e', fexp, emin, prec, emax. lia. }
  set (m' := match 0 - 0 - e' with Z0 => _ | Zpos _ => _ | Zneg _ => _ end).
  assert (m' = Zpos a * 2 ^ (- e')) as Hm'.
  { unfold m'. unfold prec in He. destruct e' as [| |p]; simpl; [lia..|].
    by rewrite Z.shiftl_mul_pow2 by lia. }
  pose proof (Z.div_eucl_eq m' (Zpos b) ltac:(lia)) as Heq.
  pose proof (Z.mod_pos_bound m' (Zpos b) ltac:(lia)) as Hr.
  assert (0 ≤ m' / Zpos b) as Hq.
  { apply Z.div_pos; [|lia]. rewrite Hm'.
    assert (0 < 2 ^ (- e')) by (apply Z.pow_pos_nonneg; unfold prec in *; lia).
    lia. }
  unfold Z.modulo in Hr. unfold Z.div in Hq.
  destruct (Z.div_eucl m' (Z.pos b)) as [q r]. split; [|done].
  unfold prec in He. replace e' with (- - e') by lia.
  apply located_scale; [lia|]. rewrite <-Hm'.
  by apply new_location_located.
Qed.

(** [a / b] on two counts is within [2 ^ -53] of the exact quotient. *)
Lemma div_near a b :
  (a ≤ b)%positive →
  near (Zpos a) (Zpos b) (-52)
    (SFdiv prec emax (S754_finite false a 0) (S754_finite false b 0)).
Proof.
  intros Hab. pose proof (div_core_below a b Hab) as Hb.
  pose proof (div_core_located a b Hab) as Hl. unfold SFdiv.
  destruct (SFdiv_core_binary prec emax (Z.pos a) 0 (Z.pos b) 0) as [[mz ez] lz].
  simpl in *. destruct Hl as [Hl He].
  apply (binary_round_aux_near _ _ 1 1); unfold prec in *; try done; lia.
Qed.

Lemma int_truediv_near a b :
  0 ≤ a ≤ b → 0 < b →
  ∃ q, int_truediv a b = Ret q ∧ bounded_by 1 q ∧ near a b (-52) q.
Proof.
  intros [Ha Hab] Hb. destruct b as [|pb|pb]; [lia| |lia].
  destruct a as [|pa|pa]; [|clear Ha|lia].
  { eexists. split; [done|]. split; [done|]. unfold near, near_at. simpl. lia. }
  pose proof (div_bounded pa pb ltac:(lia)) as Hq.
  pose proof (div_near pa pb ltac:(lia)) as Hn. unfold int_truediv.
  change (Z.pos pa <? 0) with false. change (Z.pos pb <? 0) with false.
  change (Z.to_pos (Z.abs (Z.pos pa))) with pa.
  change (Z.to_pos (Z.abs (Z.pos pb))) with pb. unfold int_as_float.
  destruct (SFdiv prec emax _ _) as [[]| | |[] m e]; try done; by eexists.
Qed.

(** The product by [100] of a float of [[0, 1]] is within [2 ^ -47] of
    the exact product. *)
Lemma mul_100_exact_near m e :
  e ≤ 0 → Zpos m ≤ 2 ^ (- e) →
  near (100 * Zpos m) (2 ^ (- e)) (-46)
    (mul (S754_finite false m e) (of_int 100)).
Proof.
  intros He Hm. rewrite of_int_100. simpl.
  assert (0 < 2 ^ (- e)) by (apply Z.pow_pos_nonneg; lia).
  assert (2 ^ (- (e + -46)) = 70368744177664 * 2 ^ (- e)) as Hpow.
  { replace (- (e + -46)) with (46 + - e) by lia.
    by rewrite Z.pow_add_r by lia. }
  apply (binary_round_aux_near _ _ 100 7); unfold prec; try done; try lia.
  - unfold below. simpl. rewrite Hpow. repeat split; [lia|lia|nia|done].
  - unfold located. simpl. rewrite Hpow. repeat split; [lia|lia|nia].
Qed.

(** Both roundings together: the share is within [2 ^ -45] of the exact
    percentage. *)
Lemma mul_100_near a b x :
  0 ≤ a → 0 < b → bounded_by 1 x → near a b (-52) x →
  near (100 * a) b (-44) (mul x (of_int 100)).
Proof.
  intros Ha Hb Hx Hn. destruct x as [[]| | |[] m e]; try done.
  - unfold near, near_at in *. simpl in *. lia.
  - destruct Hx as [He Hm]. change (2 ^ (- 0)) with 1 in *.
    pose proof (mul_100_exact_near m e He ltac:(lia)) as Hmul.
    pose proof (mul_100_bounded (S754_finite false m e) ltac:(by split)) as Hb2.
    assert (0 < 2 ^ (- e)) as HS1 by (apply Z.pow_pos_nonneg; lia).
    destruct Hn as (_ & _ & Hn).
    set (S1 := 2 ^ (- e)) in *. clearbody S1.
    change (2 ^ (- -52)) with 4503599627370496 in Hn.
    assert (∀ m2 e2, near_at (100 * Zpos m) S1 (-46) m2 e2 →
                     near_at (100 * a) b (-44) m2 e2) as Hstep.
    { intros m2 e2 (He2 & Hm2 & Hn2). split; [done|]. split; [done|].
      assert (0 < 2 ^ (- e2)) as HS2 by (apply Z.pow_pos_nonneg; lia).
      set (S2 := 2 ^ (- e2)) in *. clearbody S2.
      change (2 ^ (- -46)) with 70368744177664 in Hn2.
      change (2 ^ (- -44)) with 17592186044416.
      set (A := m2 * S1 - 100 * Zpos m * S2) in *.
      set (Bq := Zpos m * b - a * S1) in *.
      assert (S1 * (m2 * b - 100 * a * S2) = b * A + 100 * S2 * Bq) as Heq
        by (unfold A, Bq; ring).
      assert (- (b * (S1 * S2)) ≤ b * (2 * 70368744177664 * A) ≤ b * (S1 * S2))
        as HA by nia.
      assert (- (S2 * (b * S1)) ≤ S2 * (2 * 4503599627370496 * Bq) ≤ S2 * (b * S1))
        as HB by nia.
      assert (- (S1 * (b * S2))
              ≤ S1 * (2 * 17592186044416 * (m2 * b - 100 * a * S2))
              ≤ S1 * (b * S2)) as Hgoal.
      { replace (S1 * (2 * 17592186044416 * (m2 * b - 100 * a * S2)))
          with (2 * 17592186044416 * (S1 * (m2 * b - 100 * a * S2))) by ring.
        rewrite Heq. clearbody A Bq. lia. }
      split; apply (Z.mul_le_mono_pos_l _ _ S1 HS1); lia. }
    destruct (mul (S754_finite false m e) (of_int 100)) as [[]| | |[] m2 e2];
      try done; by apply Hstep.
Qed.

Lemma near_close_to N (d : positive) x :
  near N (Zpos d) (-44) x →
  close_to (N # d) (1 # 35184372088832) x.
Proof.
  destruct x as [[]| | |[] m e]; try done; simpl.
  - intros (_ & _ & Hn). change (2 ^ (- -44)) with 17592186044416 in Hn.
    change (2 ^ (- 0)) with 1 in Hn.
    exists (inject_Z 0). split; [done|].
    unfold Qle, Qminus, Qplus, Qopp, inject_Z. simpl.
    rewrite !Pos2Z.inj_mul. lia.
  - intros (He & _ & Hn). change (2 ^ (- -44)) with 17592186044416 in Hn.
    eexists. split; [done|]. destruct e as [|p|p]; [| lia |].
    + change (2 ^ (- 0)) with 1 in Hn. unfold F2Q.
      change (2 ^ 0) with 1.
      unfold Qle, Qminus, Qplus, Qopp, inject_Z. simpl.
      rewrite !Pos2Z.inj_mul. lia.
    + change (- Z.neg p) with (Zpos p) in Hn. unfold F2Q.
      unfold Qle, Qminus, Qplus, Qopp. simpl.
      rewrite !Pos2Z.inj_mul, !Pos2Z.inj_pow.
      set (S2 := 2 ^ Zpos p) in *.
      assert (0 < S2) by (apply Z.pow_pos_nonneg; lia). clearbody S2. nia.
Qed.

Lemma round_half_even_nearest n d :
  0 < d →
  - d ≤ 2 * (n - round_half_even n d * d) ≤ d ∧
  (2 * (n - round_half_even n d * d) = d
   ∨ 2 * (n - round_half_even n d * d) = - d →
   Z.even (round_half_even n d) = true).
Proof.
  intros Hd. unfold round_half_even.
  pose proof (Z.div_mod n d ltac:(lia)) as Heq.
  pose proof (Z.mod_pos_bound n d Hd) as Hr.
  destruct (Z.compare_spec (2 * (n mod d)) d) as [Hc|Hc|Hc].
  - destruct (Z.even (n / d)) eqn:Hev.
    + split; [nia|]. done.
    + split; [nia|]. intros _.
      by rewrite Z.even_add, Hev.
  - split; [nia|]. intros [?|?]; nia.
  - split; [nia|]. intros [?|?]; nia.
Qed.

Lemma tenths_nearest m e :
  e ≤ 0 → nearest_tenth (F2Q (Zpos m) e) (tenths m e).
Proof.
  intros He. destruct e as [|p|p]; [| lia |].
  - unfold tenths, F2Q, nearest_tenth. change (2 ^ 0) with 1.
    unfold Qle, Qeq, Qminus, Qplus, Qmult, Qopp, inject_Z. simpl.
    split; [lia|]. split; [lia|]. intros [?|?]; lia.
  - unfold tenths, F2Q, nearest_tenth.
    pose proof (round_half_even_nearest (10 * Zpos m) (Zpos (2 ^ p))
                  ltac:(lia)) as [Hn Heven].
    set (n := round_half_even (10 * Z.pos m) (Z.pos (2 ^ p))) in *.
    clearbody n.
    unfold Qle, Qeq, Qminus, Qplus, Qmult, Qopp, inject_Z. simpl.
    rewrite ?Pos2Z.inj_mul.
    split; [lia|]. split; [lia|]. intros [Ht|Ht]; apply Heven; lia.
Qed.

End share_errors.

(** ** Masks and counts *)

Lemma cell_eqb_py_eq c v : cell_eqb c v ↔ py_eq c v.
Proof.
  unfold py_eq. destruct c as [|s], v as [|n|[|t]]; simpl;
    (split; [|intros [Hc Hv]]); try done.
  - by intros ->%bool_decide_unpack.
  - injection Hv as ->. by apply bool_decide_pack.
Qed.

Lemma py_eq_str c s : py_eq c (VCell (Str s)) ↔ c = Str s.
Proof.
  unfold py_eq. split; [by intros [_ [= ->]]|]. by intros ->.
Qed.

Lemma df_mask_fmap (f : Row → bool) (df : DataFrame) :
  df_mask df (f <$> df) = filter (λ r, f r) df.
Proof.
  induction df as [|r df IH]; [done|].
  rewrite fmap_cons, filter_cons. cbn [df_mask]. rewrite IH.
  by destruct (f r).
Qed.

Lemma series_and_fmap {A} (f g : A → bool) (l : list A) :
  series_and (f <$> l) (g <$> l) = (λ x, f x && g x) <$> l.
Proof. induction l as [|x l IH]; [done|]. simpl. by f_equal. Qed.

Lemma series_eq_col (f : Row → cell) (df : DataFrame) v :
  series_eq (col f df) v = (λ r, cell_eqb (f r) v) <$> df.
Proof. unfold series_eq, col. by rewrite <-list_fmap_compose. Qed.

(** The rows a mask on one column keeps. *)
Lemma df_mask_series_eq (f : Row → cell) (df : DataFrame) v :
  df_mask df (series_eq (col f df) v) = filter (λ r, py_eq (f r) v) df.
Proof.
  rewrite series_eq_col, df_mask_fmap. apply list_filter_iff.
  intros r. apply cell_eqb_py_eq.
Qed.

Lemma similar_profiles_filter (df : DataFrame) nv uf :
  similar_profiles df nv uf =
    filter (λ r, py_eq (nivel r) nv ∧ py_eq (ufOndeMora r) uf) df.
Proof.
  unfold similar_profiles. rewrite !series_eq_col, series_and_fmap, df_mask_fmap.
  apply list_filter_iff. intros r.
  rewrite andb_True, !cell_eqb_py_eq. done.
Qed.

(** The number of rows with the profile's job title, as the mask of line
    264 counts them. *)
Lemma cargo_count_filter (data : DataFrame) cargo :
  cargo_count data cargo =
    Z.of_nat (length (filter (λ r, py_eq (cargoAtual r) cargo) data)).
Proof. unfold cargo_count, len. by rewrite df_mask_series_eq. Qed.

Lemma cargo_count_bounds (data : DataFrame) cargo :
  (0 ≤ cargo_count data cargo ≤ len data)%Z.
Proof.
  rewrite cargo_count_filter. unfold len.
  pose proof (length_filter (λ r, py_eq (cargoAtual r) cargo) data). lia.
Qed.

(** On a dataset that has rows the share is computed, and it is a float
    of [[0, 100]]. *)
Lemma cargo_percentage_nonempty (data : DataFrame) cargo :
  data ≠ [] →
  ∃ share, int_truediv (cargo_count data cargo) (len data) = Ret share ∧
           bounded_by 1 share ∧
           cargo_percentage data cargo = Ret (mul share (of_int 100)).
Proof.
  intros Hne. pose proof (cargo_count_bounds data cargo) as Hc.
  assert (0 < len data)%Z as Hlen.
  { unfold len. destruct data; [done|simpl; lia]. }
  destruct (int_truediv_bounded _ _ Hc Hlen) as (share & Hdiv & Hb).
  exists share. unfold cargo_percentage. by rewrite Hdiv.
Qed.

(** ** The pipeline, step by step *)




Lemma predict_bracket_returns model p X label rest bracket :
  df_select (user_data p) (feature_names_in_ model) = Ret X →
  predict model X = Ret (label :: rest) →
  salario_limpo label = Ret bracket →
  predict_bracket model p = ([model_predict X], Returned bracket).
Proof.
  intros HX Hpred Hb. unfold predict_bracket. rewrite HX. simpl.
  rewrite Hpred. simpl. by rewrite Hb.
Qed.

Lemma predict_bracket_trace model p :
  trace (predict_bracket model p) =
    match df_select (user_data p) (feature_names_in_ model) with
    | Ret X => [model_predict X]
    | Raise _ => []
    end.
Proof.
  unfold predict_bracket.
  destruct (df_select _ _) as [X|e]; simpl; [|done].
  destruct (predict model X) as [preds|e]; simpl; [|done].
  destruct (index_first preds) as [label|e]; simpl; [|done].
  by destruct (salario_limpo label).
Qed.

(** Nothing in the prediction calls [st.stop()]. *)
Lemma predict_bracket_not_stopped model p :
  outcome (predict_bracket model p) ≠ Stopped.
Proof.
  unfold predict_bracket.
  destruct (df_select _ _) as [X|e]; simpl; [|done].
  destruct (predict model X) as [preds|e]; simpl; [|done].
  destruct (index_first preds) as [label|e]; simpl; [|done].
  by destruct (salario_limpo label).
Qed.

(** The trace of a submission whose prediction returned. *)
Lemma on_submit_returned exn_str model data p show t bracket :
  predict_bracket model p = (t, Returned bracket) →
  on_submit exn_str model data p show =
    (t ++ [st_success (bracket_line bracket); similar_metric data p] ++
       match cargo_percentage data (p_cargo p) with
       | Ret x =>
           share_metric x ::
           (if show
            then [st_plotly_chart (create_salary_visualization bracket)]
            else [])
       | Raise e => error_lines exn_str e
       end,
     Returned tt).
Proof.
  intros Hb. unfold on_submit, report_prediction. rewrite Hb.
  destruct (cargo_percentage data (p_cargo p)) as [x|e]; simpl.
  - by destruct show.
  - by rewrite <-app_assoc.
Qed.

(** The trace of a submission whose prediction raised. *)
Lemma on_submit_raised exn_str model data p show t e :
  predict_bracket model p = (t, Raised e) →
  on_submit exn_str model data p show = (t ++ error_lines exn_str e, Returned tt).
Proof. intros Hb. unfold on_submit, report_prediction. by rewrite Hb. Qed.

Lemma on_submit_predict_calls exn_str model data p show :
  predict_calls (trace (on_submit exn_str model data p show)) =
    predict_calls (trace (predict_bracket model p)).
Proof.
  pose proof (predict_bracket_not_stopped model p) as Hns.
  destruct (predict_bracket model p) as [t [bracket|e|]] eqn:Hpb; [| |done].
  - rewrite (on_submit_returned _ _ _ _ _ _ _ Hpb). unfold predict_calls.
    simpl. rewrite omap_app. simpl.
    destruct (cargo_percentage data (p_cargo p)); simpl;
      [destruct show|]; simpl; by rewrite app_nil_r.
  - rewrite (on_submit_raised _ _ _ _ _ _ _ Hpb). unfold predict_calls.
    simpl. rewrite omap_app. simpl. by rewrite app_nil_r.
Qed.

(** ** Loading the model *)

Lemma foldl_max_spec (l : list Z) : ∀ x,
  foldl Z.max x l ∈ x :: l ∧ ∀ v, v ∈ x :: l → (v ≤ foldl Z.max x l)%Z.
Proof.
  induction l as [|y l IH]; intros x; simpl.
  - split; [apply elem_of_cons; by left|].
    intros v [->|[]%elem_of_nil]%elem_of_cons. lia.
  - destruct (IH (Z.max x y)) as [Hin Hub]. split.
    + apply elem_of_cons in Hin as [Heq|Hin].
      * rewrite Heq. destruct (Z.max_spec x y) as [[_ ->]|[_ ->]].
        -- apply elem_of_cons. right. apply elem_of_cons. by left.
        -- apply elem_of_cons. by left.
      * apply elem_of_cons. right. apply elem_of_cons. by right.
    + intros v [->|[->|Hv]%elem_of_cons]%elem_of_cons.
      * pose proof (Hub (Z.max x y) ltac:(apply elem_of_cons; by left)). lia.
      * pose proof (Hub (Z.max x y) ltac:(apply elem_of_cons; by left)). lia.
      * apply Hub. apply elem_of_cons. by right.
Qed.

(** [max(l)] is an element of [l] that no element exceeds. *)
Lemma py_max_spec (l : list Z) x :
  py_max l = Ret x → x ∈ l ∧ ∀ v, v ∈ l → (v ≤ x)%Z.
Proof.
  destruct l as [|y l]; [done|]. intros [= <-]. apply foldl_max_spec.
Qed.

Lemma py_max_is_Ret (l : list Z) : l ≠ [] → ∃ x, py_max l = Ret x.
Proof. destruct l; [done|]. by eexists. Qed.

(** ** The form *)

Lemma unique_from_spec (s : list cell) : ∀ seen,
  NoDup (unique_from seen s) ∧
  ∀ c, c ∈ unique_from seen s ↔ c ∈ s ∧ c ∉ seen.
Proof.
  induction s as [|x s IH]; intros seen; simpl.
  - split; [constructor|]. intros c. split; [by intros ?%elem_of_nil|].
    by intros [?%elem_of_nil _].
  - case_decide as Hx.
    + destruct (IH seen) as [Hnd Hin]. split; [done|]. intros c.
      rewrite Hin, elem_of_cons. split; [by intros [? ?]; auto|].
      intros [[->|Hc] Hns]; [done|by split].
    + destruct (IH (x :: seen)) as [Hnd Hin]. split.
      * constructor; [|done]. rewrite Hin, elem_of_cons.
        intros [_ Hns]. apply Hns. by left.
      * intros c. rewrite !elem_of_cons, Hin, elem_of_cons. split.
        -- intros [->|[Hc Hns]]; [by split; [left|]|].
           split; [by right|]. intros Hseen. apply Hns. by right.
        -- intros [[->|Hc] Hns]; [by left|].
           destruct (decide (c = x)) as [->|Hne]; [by left|right].
           split; [done|]. by intros [?|?].
Qed.

(** [unique] keeps every value of the series, once. *)
Lemma unique_spec (s : list cell) :
  NoDup (unique s) ∧ ∀ c, c ∈ unique s ↔ c ∈ s.
Proof.
  destruct (unique_from_spec s []) as [Hnd Hin]. split; [done|].
  intros c. rewrite Hin. split; [by intros [? _]|].
  intros Hc. split; [done|]. apply not_elem_of_nil.
Qed.

Lemma elem_of_sort_values (s : list cell) c : c ∈ sort_values s ↔ c ∈ s.
Proof. unfold sort_values. by rewrite merge_sort_Permutation. Qed.


Lemma foldl_min_spec (l : list Z) : ∀ x,
  foldl Z.min x l ∈ x :: l ∧ ∀ v, v ∈ x :: l → (foldl Z.min x l ≤ v)%Z.
Proof.
  induction l as [|y l IH]; intros x; simpl.
  - split; [apply elem_of_cons; by left|].
    intros v [->|[]%elem_of_nil]%elem_of_cons. lia.
  - destruct (IH (Z.min x y)) as [Hin Hlb]. split.
    + apply elem_of_cons in Hin as [Heq|Hin].
      * rewrite Heq. destruct (Z.min_spec x y) as [[_ ->]|[_ ->]].
        -- apply elem_of_cons. by left.
        -- apply elem_of_cons. right. apply elem_of_cons. by left.
      * apply elem_of_cons. right. apply elem_of_cons. by right.
    + intros v [->|[->|Hv]%elem_of_cons]%elem_of_cons.
      * pose proof (Hlb (Z.min x y) ltac:(apply elem_of_cons; by left)). lia.
      * pose proof (Hlb (Z.min x y) ltac:(apply elem_of_cons; by left)). lia.
      * apply Hlb. apply elem_of_cons. by right.
Qed.

(** [min()] of a column with values is the least of them. *)
Lemma series_min_spec (s : list Z) m :
  series_min s = Some m → m ∈ s ∧ ∀ x, x ∈ s → (m ≤ x)%Z.
Proof.
  destruct s as [|y s]; [done|]. intros [= <-]. apply foldl_min_spec.
Qed.

(** With no row in the Reference Dataset the script ends while it builds
    the form: no profile is ever submitted against an empty dataset. *)
Lemma empty_dataset_ends_at_the_form exn_str mlflow inp t model model_version :
  load_model exn_str mlflow = (t, Returned (model, model_version)) →
  outcome (app_py exn_str mlflow (Ret []) inp) = Raised ValueError.
Proof. intros Hload. unfold app_py. by rewrite Hload. Qed.

Lemma series_min_le (s : list Z) m bound :
  series_min s = Some m → (m ≤ bound)%Z ↔ ∃ x, x ∈ s ∧ (x ≤ bound)%Z.
Proof.
  intros [Hin Hlb]%series_min_spec. split.
  - intros Hm. by exists m.
  - intros (x & Hx & Hle). specialize (Hlb x Hx). lia.
Qed.

Lemma idade_input_cases (data : list Row) entered :
  match series_min (col idade data) with
  | None => data = [] ∧ idade_input data entered = Raise ValueError
  | Some m =>
      data ≠ [] ∧
      if decide (m ≤ 30)%Z
      then ∃ age, idade_input data entered = Ret age
      else idade_input data entered = Raise StreamlitAPIException
  end.
Proof.
  unfold idade_input. destruct data as [|r data]; [done|].
  cbn [col fmap list_fmap series_min int_of_min mbind res_bind].
  split; [done|]. unfold number_input.
  set (m := foldl Z.min (idade r) _).
  case_decide as Hm.
  - assert ((30 <? m)%Z = false) as -> by (apply Z.ltb_ge; lia).
    simpl. by eexists.
  - assert ((30 <? m)%Z = true) as -> by (apply Z.ltb_lt; lia). done.
Qed.

(** How the form ends, by the ages of the Reference Dataset. *)
Lemma form_cases (data : list Row) inp :
  match salary_prediction_form data inp with
  | Ret p => ∃ r, r ∈ data ∧ (idade r ≤ 30)%Z
  | Raise e =>
      (data = [] ∧ e = ValueError)
      ∨ (data ≠ [] ∧ (∀ r, r ∈ data → (30 < idade r)%Z) ∧
         e = StreamlitAPIException)
  end.
Proof.
  pose proof (idade_input_cases data (in_idade inp)) as Hcases.
  unfold salary_prediction_form.
  destruct (series_min (col idade data)) as [m|] eqn:Hmin.
  - destruct Hcases as [Hne Hcases].
    pose proof (series_min_le _ _ 30%Z Hmin) as Hle.
    assert ((∃ x, x ∈ col idade data ∧ (x ≤ 30)%Z)
            ↔ ∃ r, r ∈ data ∧ (idade r ≤ 30)%Z) as Hrows.
    { unfold col. split.
      - intros (x & (r & -> & Hr)%list_elem_of_fmap & Hx). by exists r.
      - intros (r & Hr & Hx). exists (idade r). split; [|done].
        by apply list_elem_of_fmap_2. }
    case_decide as Hm.
    + destruct Hcases as [age ->]. simpl. by apply Hrows, Hle.
    + rewrite Hcases. simpl. right. split; [done|]. split; [|done].
      intros r Hr. destruct (decide (idade r ≤ 30)%Z) as [Hage|]; [|lia].
      exfalso. apply Hm, Hle, Hrows. by exists r.
  - destruct Hcases as [-> ->]. simpl. by left.
Qed.

(** A form that renders has a dataset with rows behind it. *)
Lemma form_Ret_nonempty (data : list Row) inp p :
  salary_prediction_form data inp = Ret p → data ≠ [].
Proof.
  intros Hform. pose proof (form_cases data inp) as Hcases.
  rewrite Hform in Hcases. destruct Hcases as (r & Hr & _).
  intros ->. by apply elem_of_nil in Hr.
Qed.

(** The age the widget returns, by what the user typed. *)
Lemma idade_input_bounds (data : list Row) entered age :
  idade_input data entered = Ret age →
  ∃ min_idade,
    series_min (col idade data) = Some min_idade ∧
    min_idade ∈ col idade data ∧
    (∀ x, x ∈ col idade data → (min_idade ≤ x)%Z) ∧
    (min_idade ≤ age ≤ 100)%Z ∧
    (entered = None → age = 30%Z) ∧
    (∀ v, entered = Some v → (min_idade ≤ v ≤ 100)%Z → age = v).
Proof.
  unfold idade_input. destruct (series_min (col idade data)) as [m|] eqn:Hmin;
    [|done].
  simpl. unfold number_input.
  destruct ((30 <? m)%Z || (100 <? 30)%Z) eqn:Hdef; [done|].
  apply orb_false_iff in Hdef as [Hm%Z.ltb_ge _]. intros [= <-].
  exists m. destruct (series_min_spec _ _ Hmin) as [Hin Hlb].
  split; [done|]. split; [done|]. split; [done|].
  split; [|split].
  - destruct entered as [v|]; [|lia].
    destruct ((m <=? v)%Z && (v <=? 100)%Z) eqn:Hv; [|lia].
    apply andb_true_iff in Hv as [?%Z.leb_le ?%Z.leb_le]. lia.
  - by intros ->.
  - intros v -> [Hv1 Hv2].
    assert ((m <=? v)%Z = true) as -> by (apply Z.leb_le; lia).
    assert ((v <=? 100)%Z = true) as -> by (apply Z.leb_le; lia). done.
Qed.

(** ** One run of the script *)

Lemma quiet_trace (t : list event) :
  Forall quiet t →
  predict_calls t = [] ∧ shown_brackets t = [] ∧ logged_errors t = [].
Proof.
  induction 1 as [|ev t Hev _ (IH1 & IH2 & IH3)]; [done|].
  unfold predict_calls, shown_brackets, logged_errors in *.
  by destruct ev; simpl in *.
Qed.

Lemma load_model_quiet exn_str mlflow :
  Forall quiet (trace (load_model exn_str mlflow)).
Proof.
  unfold load_model.
  destruct (search_registered_models mlflow) as [found|e]; simpl;
    [|by repeat constructor].
  destruct (filter _ found) as [|model0 others]; simpl; [by repeat constructor|].
  destruct (py_max _) as [last_version|e]; simpl; [|by repeat constructor].
  destruct (sklearn_load_model mlflow _) as [model|e]; simpl;
    by repeat constructor.
Qed.

Lemma load_model_not_raised exn_str mlflow e :
  outcome (load_model exn_str mlflow) ≠ Raised e.
Proof.
  unfold load_model.
  destruct (search_registered_models mlflow) as [found|e']; simpl; [|done].
  destruct (filter _ found) as [|model0 others]; simpl; [done|].
  destruct (py_max _) as [last_version|e']; simpl; [|done].
  by destruct (sklearn_load_model mlflow _) as [model|e'].
Qed.

Lemma load_template_data_run exn_str read_csv :
  match read_csv with
  | Ret data => load_template_data exn_str read_csv = ([], Returned data)
  | Raise e =>
      ∃ msg, load_template_data exn_str read_csv = ([st_error msg], Stopped)
  end.
Proof. destruct read_csv as [data|[]]; simpl; by eexists. Qed.

Lemma sidebar_quiet model_version data :
  Forall quiet (trace (sidebar model_version data))
  ∧ outcome (sidebar model_version data) = Returned tt.
Proof. split; [by repeat constructor|done]. Qed.

(** The script, piece by piece. *)
Lemma app_py_run exn_str mlflow read_csv inp :
  ∃ t, Forall quiet t ∧
    match outcome (load_model exn_str mlflow), read_csv with
    | Returned (model, model_version), Ret data =>
        match salary_prediction_form data inp with
        | Ret p =>
            app_py exn_str mlflow read_csv inp =
              if in_submitted inp
              then (t ++ trace (on_submit exn_str model data p
                                  (in_show_visual inp)), Returned tt)
              else (t, Returned tt)
        | Raise e => app_py exn_str mlflow read_csv inp = (t, Raised e)
        end
    | Raised e, _ => False
    | _, _ => app_py exn_str mlflow read_csv inp = (t, Stopped)
    end.
Proof.
  pose proof (load_model_quiet exn_str mlflow) as Hq.
  pose proof (load_model_not_raised exn_str mlflow) as Hnr.
  unfold app_py.
  destruct (load_model exn_str mlflow) as [t1 [[model v]|e|]]; simpl in *;
    [| by destruct (Hnr e) | by exists t1; destruct read_csv].
  pose proof (load_template_data_run exn_str read_csv) as Hdata.
  destruct read_csv as [data|e].
  - rewrite Hdata. simpl.
    destruct (salary_prediction_form data inp) as [p|e] eqn:Hform; simpl.
    + destruct (in_submitted inp).
      * destruct (on_submit exn_str model data p (in_show_visual inp))
          as [t' r] eqn:Hsub.
        assert (r = Returned tt) as ->.
        { pose proof (predict_bracket_not_stopped model p) as Hns.
          destruct (predict_bracket model p) as [tp [b|e|]] eqn:Hpb; [| |done].
          - rewrite (on_submit_returned _ _ _ _ _ _ _ Hpb) in Hsub.
            by injection Hsub as _ <-.
          - rewrite (on_submit_raised _ _ _ _ _ _ _ Hpb) in Hsub.
            by injection Hsub as _ <-. }
        exists (t1 ++ trace (sidebar v data)).
        split; [apply Forall_app; split; [done|apply sidebar_quiet]|].
        simpl. by rewrite <-app_assoc.
      * exists (t1 ++ trace (sidebar v data)).
        split; [apply Forall_app; split; [done|apply sidebar_quiet]|done].
    + exists (t1 ++ trace (sidebar v data)).
      split; [apply Forall_app; split; [done|apply sidebar_quiet]|done].
  - destruct Hdata as [msg ->]. exists (t1 ++ [st_error msg]).
    split; [|done]. apply Forall_app. split; [done|]. by repeat constructor.
Qed.

(** What a submission against a dataset with rows shows. *)
Lemma on_submit_nonempty exn_str model (data : list Row) p show :
  data ≠ [] →
  match predict_bracket model p with
  | (t, Returned bracket) =>
      ∃ share,
        on_submit exn_str model data p show =
          (t ++ [st_success (bracket_line bracket); similar_metric data p;
                 share_metric share]
             ++ (if show then [st_plotly_chart (create_salary_visualization bracket)]
                 else []),
           Returned tt)
  | (t, Raised e) =>
      on_submit exn_str model data p show = (t ++ error_lines exn_str e, Returned tt)
  | (t, Stopped) => False
  end.
Proof.
  intros Hne. pose proof (predict_bracket_not_stopped model p) as Hns.
  destruct (predict_bracket model p) as [t [bracket|e|]] eqn:Hpb; [| |done].
  - destruct (cargo_percentage_nonempty data (p_cargo p) Hne)
      as (share & _ & _ & Hshare).
    exists (mul share (of_int 100)).
    by rewrite (on_submit_returned _ _ _ _ _ _ _ Hpb), Hshare.
  - by rewrite (on_submit_raised _ _ _ _ _ _ _ Hpb).
Qed.

Lemma predict_bracket_calls model p :
  shown_brackets (trace (predict_bracket model p)) = [] ∧
  logged_errors (trace (predict_bracket model p)) = [] ∧
  length (predict_calls (trace (predict_bracket model p))) ≤ 1.
Proof.
  rewrite predict_bracket_trace.
  destruct (df_select _ _); simpl; repeat split; lia.
Qed.

(** * The examples of the specification *)

Example ex_profile_is_submitted :
  salary_prediction_form [ex_row] ex_input = Ret ex_profile.
Proof. reflexivity. Qed.

Example spec_example_bracket :
  salario_limpo "Faixa - R$ 6.000-12.000" = Ret "R$ 6.000-12.000".
Proof. vm_compute. reflexivity. Qed.

Example spec_example_job_share :
  cargo_percentage ex_hundred_rows (VCell (Str "Data Engineer")) = Ret (of_int 10)
  ∧ cargo_percentage_text (of_int 10) = "10.0%".
Proof. split; vm_compute; reflexivity. Qed.

Example ex_registry_loads :
  load_model (λ _, "") ex_registry =
    ([logger_info "Modelo carregado com sucesso - versão 7"],
     Returned (constant_model "Faixa - R$ 6.000-12.000", 7%Z)).
Proof. reflexivity. Qed.

Example ex_registry_without_model :
  load_model (λ _, "")
    {| search_registered_models := Ret (take 1 ex_registered);
       sklearn_load_model := sklearn_load_model ex_registry |} =
    ([st_error "❌ Modelo 'salario-model' não encontrado no MLflow"], Stopped).
Proof. reflexivity. Qed.

Example age_widget_refuses_empty_dataset entered :
  idade_input [] entered = Raise ValueError.
Proof. reflexivity. Qed.

(** * The claims *)

(** C1. Whatever label the predictor returns for the submitted profile,
    the pipeline returns and displays as the bracket the text that follows
    the last occurrence of the separator "- " in it, and the whole label
    when the separator does not occur. *)
Theorem C1_bracket_follows_last_separator exn_str model data p show X label rest :
  df_select (user_data p) (feature_names_in_ model) = Ret X →
  predict model X = Ret (label :: rest) →
  ∃ bracket,
    text_after_last "- " label bracket ∧
    outcome (predict_bracket model p) = Returned bracket ∧
    st_success (bracket_line bracket)
      ∈ trace (on_submit exn_str model data p show).
Proof.
  intros HX Hpred.
  destruct (salario_limpo_after_last label) as (bracket & Hb & Hspec).
  exists bracket. split; [done|].
  pose proof (predict_bracket_returns _ _ _ _ _ _ HX Hpred Hb) as Hpb.
  split; [by rewrite Hpb|].
  rewrite (on_submit_returned exn_str _ data _ show _ _ Hpb). simpl.
  apply elem_of_cons. right. apply elem_of_cons. by left.
Qed.

Lemma C1_witness :
  ∃ bracket,
    text_after_last "- " "Faixa - R$ 6.000-12.000" bracket ∧
    outcome (predict_bracket (constant_model "Faixa - R$ 6.000-12.000")
               ex_profile) = Returned bracket ∧
    st_success (bracket_line bracket)
      ∈ trace (on_submit (λ _, "") (constant_model "Faixa - R$ 6.000-12.000")
                 [ex_row] ex_profile false).
Proof.
  apply (C1_bracket_follows_last_separator _ _ _ _ _ (user_data ex_profile)
           "Faixa - R$ 6.000-12.000" []); reflexivity.
Defined.




(** C3, as stated, fails: for a valid profile and a predictor whose label
    ends with the separator, the bracket is the empty string. *)
Lemma C3_counterexample_empty_bracket :
  salary_prediction_form [ex_row] ex_input = Ret ex_profile ∧
  predict (constant_model "Faixa - ") (user_data ex_profile)
    = Ret ["Faixa - "] ∧
  outcome (predict_bracket (constant_model "Faixa - ") ex_profile)
    = Returned "".
Proof. repeat split; vm_compute; reflexivity. Qed.

(** C3, amended. For every profile on which the predictor returns a
    label, [predict_bracket] returns a string that holds no occurrence of
    the separator "- "; that string is empty exactly when the label is
    empty or ends with the separator. *)
Theorem C3_bracket_has_no_separator model p X label rest :
  df_select (user_data p) (feature_names_in_ model) = Ret X →
  predict model X = Ret (label :: rest) →
  ∃ bracket,
    outcome (predict_bracket model p) = Returned bracket ∧
    (∀ i, ¬ occurs_at "- " bracket i) ∧
    (bracket = "" ↔ label = "" ∨ ∃ pre, label = pre +:+ "- ").
Proof.
  intros HX Hpred.
  destruct (salario_limpo_no_separator label) as (bracket & Hb & Hno & Hnil).
  exists bracket. split; [|done].
  by rewrite (predict_bracket_returns _ _ _ _ _ _ HX Hpred Hb).
Qed.

Lemma C3_witness :
  ∃ bracket,
    outcome (predict_bracket (constant_model "Faixa - R$ 6.000-12.000")
               ex_profile) = Returned bracket ∧
    (∀ i, ¬ occurs_at "- " bracket i) ∧
    (bracket = "" ↔ "Faixa - R$ 6.000-12.000" = ""
                    ∨ ∃ pre, "Faixa - R$ 6.000-12.000" = pre +:+ "- ").
Proof.
  apply (C3_bracket_has_no_separator _ _ (user_data ex_profile) _ []);
    reflexivity.
Defined.


(** C5. [similar_count] is the number of rows of the Reference Dataset
    whose [nivel] equals the profile's seniority and whose [ufOndeMora]
    equals the profile's state, equality being that of [==]; it is [0]
    when no row matches, and it is computed and shown without any
    exception, as soon as the prediction itself returned. *)
Theorem C5_similar_count_counts_matches exn_str model data p show :
  similar_count data (p_nivel p) (p_uf p) =
    Z.of_nat (length (filter (λ r, py_eq (nivel r) (p_nivel p) ∧
                                   py_eq (ufOndeMora r) (p_uf p)) data))
  ∧ (∀ s u, p_nivel p = VCell (Str s) → p_uf p = VCell (Str u) →
       similar_count data (p_nivel p) (p_uf p) =
         Z.of_nat (length (filter (λ r, nivel r = Str s ∧ ufOndeMora r = Str u)
                             data)))
  ∧ ((∀ r, r ∈ data → ¬ (py_eq (nivel r) (p_nivel p) ∧
                          py_eq (ufOndeMora r) (p_uf p))) →
     similar_count data (p_nivel p) (p_uf p) = 0%Z)
  ∧ (∀ t bracket, predict_bracket model p = (t, Returned bracket) →
       similar_metric data p ∈ trace (on_submit exn_str model data p show)).
Proof.
  assert (similar_count data (p_nivel p) (p_uf p) =
    Z.of_nat (length (filter (λ r, py_eq (nivel r) (p_nivel p) ∧
                                   py_eq (ufOndeMora r) (p_uf p)) data))) as Hcount.
  { unfold similar_count, len. by rewrite similar_profiles_filter. }
  split; [done|]. split; [|split].
  - intros s u Hs Hu. rewrite Hcount, Hs, Hu. do 2 f_equal.
    apply list_filter_iff. intros r. by rewrite !py_eq_str.
  - intros Hno. rewrite Hcount.
    destruct (filter _ data) as [|r rows] eqn:Hrows; [done|exfalso].
    assert (r ∈ filter (λ r, py_eq (nivel r) (p_nivel p) ∧
                             py_eq (ufOndeMora r) (p_uf p)) data) as Hr
      by (rewrite Hrows; apply elem_of_cons; by left).
    apply list_elem_of_filter in Hr as [Hm Hin]. by apply (Hno r).
  - intros t bracket Hb. rewrite (on_submit_returned _ _ _ _ _ _ _ Hb). simpl.
    apply elem_of_app. right. apply elem_of_cons. right.
    apply elem_of_cons. by left.
Qed.

(** C6, as stated, fails: with eighty rows of which twenty-three carry the
    job the form picks, the exact share is [28.75], but [job_share], the
    product by [100] of the rounded quotient, lies under it, and the run
    shows "28.7%" where [28.75] to one decimal place is [28.8]. *)
Lemma C6_counterexample_23_of_80 :
  ∃ p job_share q,
    salary_prediction_form ex_eighty_rows ex_input = Ret p ∧
    length ex_eighty_rows = 80 ∧
    length (filter (λ r, py_eq (cargoAtual r) (p_cargo p)) ex_eighty_rows) = 23 ∧
    cargo_percentage ex_eighty_rows (p_cargo p) = Ret job_share ∧
    to_Q job_share = Some q ∧
    (q < 23 * 100 # 80)%Q ∧
    (23 * 100 # 80 == 2875 # 100)%Q ∧
    nearest_tenth (23 * 100 # 80) 288 ∧
    ¬ nearest_tenth (23 * 100 # 80) 287 ∧
    outcome (app_py (λ _, "") ex_registry (Ret ex_eighty_rows) ex_input)
      = Returned tt ∧
    st_metric "Representatividade do Cargo" (MStr "28.7%")
      ∈ trace (app_py (λ _, "") ex_registry (Ret ex_eighty_rows) ex_input).
Proof.
  eexists _, _, _. split; [by vm_compute|]. split; [by vm_compute|].
  split; [by vm_compute|]. split; [by vm_compute|]. split; [by vm_compute|].
  split; [by vm_compute|]. split; [by vm_compute|]. split.
  { unfold nearest_tenth. split; [by vm_compute|]. split; [by vm_compute|].
    done. }
  split.
  { intros (_ & _ & Heven). discriminate Heven. left. by vm_compute. }
  split; [by vm_compute|]. apply list_elem_of_In. vm_compute.
  repeat (first [left; reflexivity|right]).
Qed.

(** C6, amended. On a Reference Dataset with at least one row, [job_share]
    is the float product by [100] of the float quotient of the number of
    rows whose [cargoAtual] equals the profile's job title by the number
    of rows.  It is within [2 ^ -45] of the exact share, [count / total *
    100], without always being equal to it.  The text shown is the number
    of tenths nearest to [job_share], the even one on a tie, written with
    one decimal digit and a percent sign.  With a hundred rows, ten of
    which carry the job title, [job_share] is exactly [10.0], shown as
    "10.0%". *)
Theorem C6_job_share_formula exn_str model (data : DataFrame) p show :
  data ≠ [] →
  ∃ share job_share n,
    int_truediv
      (Z.of_nat (length (filter (λ r, py_eq (cargoAtual r) (p_cargo p)) data)))
      (Z.of_nat (length data)) = Ret share ∧
    job_share = mul share (of_int 100) ∧
    cargo_percentage data (p_cargo p) = Ret job_share ∧
    close_to
      (100 * Z.of_nat (length (filter (λ r, py_eq (cargoAtual r) (p_cargo p))
                                 data))
       # Pos.of_nat (length data))
      (1 # 2 ^ 45) job_share ∧
    (∃ q, to_Q job_share = Some q ∧ nearest_tenth q n) ∧
    cargo_percentage_text job_share =
      (str_of_int (n / 10) +:+ "." +:+ str_of_int (n mod 10)) +:+ "%" ∧
    (∀ t bracket, predict_bracket model p = (t, Returned bracket) →
       st_metric "Representatividade do Cargo"
         (MStr (cargo_percentage_text job_share))
         ∈ trace (on_submit exn_str model data p show)) ∧
    (length data = 100 →
     length (filter (λ r, py_eq (cargoAtual r) (p_cargo p)) data) = 10 →
     job_share = of_int 10 ∧
     (∃ q, to_Q job_share = Some q ∧ (q == inject_Z 10)%Q) ∧
     cargo_percentage_text job_share = "10.0%").
Proof.
  intros Hne.
  pose proof (cargo_count_bounds data (p_cargo p)) as Hc.
  assert (0 < len data)%Z as Hlen.
  { unfold len. destruct data; [done|simpl; lia]. }
  destruct (int_truediv_near _ _ Hc Hlen) as (share & Hdiv & Hb & Hnear).
  assert (cargo_percentage data (p_cargo p) = Ret (mul share (of_int 100)))
    as Hpct by (unfold cargo_percentage; by rewrite Hdiv).
  pose proof (mul_100_near _ _ _ (proj1 Hc) Hlen Hb Hnear) as Hnear2.
  pose proof (mul_100_bounded _ Hb) as Hb2.
  rewrite cargo_count_filter in Hdiv, Hnear2. unfold len in Hdiv, Hnear2.
  set (job_share := mul share (of_int 100)) in *.
  assert (∃ n, (∃ q, to_Q job_share = Some q ∧ nearest_tenth q n) ∧
               cargo_percentage_text job_share =
                 (str_of_int (n / 10) +:+ "." +:+ str_of_int (n mod 10)) +:+ "%")
    as (n & Hn & Htext).
  { clearbody job_share. destruct job_share as [[]| | |[] m e]; try done.
    - exists 0%Z. split; [|done]. exists (inject_Z 0). split; [done|].
      unfold nearest_tenth. split; [by vm_compute|]. split; [by vm_compute|].
      done.
    - exists (tenths m e). split; [|done]. eexists. split; [done|].
      apply tenths_nearest. by destruct Hb2. }
  exists share, job_share, n. split; [done|]. split; [done|]. split; [done|].
  split.
  { replace (Z.of_nat (length data)) with (Zpos (Pos.of_nat (length data)))
      in Hnear2 by (destruct data; [done|simpl; lia]).
    by apply near_close_to in Hnear2. }
  split; [done|]. split; [done|]. split.
  - intros t bracket Hpb. rewrite (on_submit_returned _ _ _ _ _ _ _ Hpb), Hpct.
    simpl. apply elem_of_app. right. do 2 (apply elem_of_cons; right).
    apply elem_of_cons. by left.
  - intros Hlen100 Hcount. rewrite Hlen100, Hcount in Hdiv.
    vm_compute in Hdiv. injection Hdiv as <-.
    split; [by vm_compute|]. split; [|by vm_compute].
    vm_compute. eexists. split; [reflexivity|]. reflexivity.
Qed.

Lemma C6_witness :
  ex_hundred_rows ≠ [] ∧
  ∃ share job_share n,
    int_truediv
      (Z.of_nat (length (filter (λ r, py_eq (cargoAtual r) (p_cargo ex_profile))
                           ex_hundred_rows)))
      (Z.of_nat (length ex_hundred_rows)) = Ret share ∧
    job_share = mul share (of_int 100) ∧
    cargo_percentage ex_hundred_rows (p_cargo ex_profile) = Ret job_share ∧
    close_to
      (100 * Z.of_nat (length (filter (λ r, py_eq (cargoAtual r)
                                              (p_cargo ex_profile))
                                 ex_hundred_rows))
       # Pos.of_nat (length ex_hundred_rows))
      (1 # 2 ^ 45) job_share ∧
    (∃ q, to_Q job_share = Some q ∧ nearest_tenth q n) ∧
    cargo_percentage_text job_share =
      (str_of_int (n / 10) +:+ "." +:+ str_of_int (n mod 10)) +:+ "%" ∧
    (∀ t bracket,
       predict_bracket (constant_model "Faixa - R$ 6.000-12.000") ex_profile
         = (t, Returned bracket) →
       st_metric "Representatividade do Cargo"
         (MStr (cargo_percentage_text job_share))
         ∈ trace (on_submit (λ _, "")
                    (constant_model "Faixa - R$ 6.000-12.000")
                    ex_hundred_rows ex_profile false)) ∧
    (length ex_hundred_rows = 100 →
     length (filter (λ r, py_eq (cargoAtual r) (p_cargo ex_profile))
               ex_hundred_rows) = 10 →
     job_share = of_int 10 ∧
     (∃ q, to_Q job_share = Some q ∧ (q == inject_Z 10)%Q) ∧
     cargo_percentage_text job_share = "10.0%").
Proof.
  assert (ex_hundred_rows ≠ []) as Hne by (vm_compute; discriminate).
  split; [exact Hne|].
  exact (C6_job_share_formula (λ _, "")
           (constant_model "Faixa - R$ 6.000-12.000")
           ex_hundred_rows ex_profile false Hne).
Defined.

(** C7. A submission always returns to its caller: it neither raises nor
    stops the script.  Whenever the body of the [try] raises, the
    exception is shown with [st.error] and logged with [logger.error];
    this holds in particular when the predictor raises and when the
    selection of its columns fails. *)
Theorem C7_prediction_failures_are_reported exn_str model data p show :
  outcome (on_submit exn_str model data p show) = Returned tt
  ∧ (∀ t e, report_prediction model data p show = (t, Raised e) →
       on_submit exn_str model data p show =
         (t ++ [ st_error ("❌ Erro na predição: " +:+ exn_str e);
                 logger_error ("Erro na predição: " +:+ exn_str e) ],
          Returned tt))
  ∧ (∀ X e, df_select (user_data p) (feature_names_in_ model) = Ret X →
       predict model X = Raise e →
       on_submit exn_str model data p show =
         ([ model_predict X;
            st_error ("❌ Erro na predição: " +:+ exn_str e);
            logger_error ("Erro na predição: " +:+ exn_str e) ],
          Returned tt))
  ∧ (∀ e, df_select (user_data p) (feature_names_in_ model) = Raise e →
       on_submit exn_str model data p show =
         ([ st_error ("❌ Erro na predição: " +:+ exn_str e);
            logger_error ("Erro na predição: " +:+ exn_str e) ],
          Returned tt)).
Proof.
  split; [|split; [|split]].
  - pose proof (predict_bracket_not_stopped model p) as Hns.
    destruct (predict_bracket model p) as [t [bracket|e|]] eqn:Hpb; [| |done].
    + by rewrite (on_submit_returned _ _ _ _ _ _ _ Hpb).
    + by rewrite (on_submit_raised _ _ _ _ _ _ _ Hpb).
  - intros t e Hbody. unfold on_submit. by rewrite Hbody.
  - intros X e HX Hpred.
    rewrite (on_submit_raised _ _ _ _ _ [model_predict X] e); [done|].
    unfold predict_bracket. rewrite HX. simpl. by rewrite Hpred.
  - intros e HX. rewrite (on_submit_raised _ _ _ _ _ [] e); [done|].
    unfold predict_bracket. by rewrite HX.
Qed.

(** C8, as stated, fails: the registry holds a model named
    "salario-model", yet [load_model] does not return a predictor, because
    the load call raises; the error is shown and the script stops. *)
Lemma C8_counterexample_load_raises :
  filter (λ i, name i = "salario-model") ex_registered ≠ [] ∧
  load_model (λ _, "connection refused") ex_unreachable_registry =
    ([ st_error "❌ Erro ao carregar modelo: connection refused";
       st_info "💡 Verifique se o MLflow está rodando em http://127.0.0.1:5000" ],
     Stopped).
Proof. split; [done|reflexivity]. Qed.

(** C8, amended. When the registry holds no model named "salario-model",
    [load_model] shows an error and stops the script.  When it holds one,
    [load_model] picks the greatest of the version numbers the registry
    lists for it and, if the load call at that version returns, returns
    the predictor so loaded together with the version number.  When the
    search raises, when the registry lists no version for the model, or
    when the load call raises, the exception is shown and the script
    stops. *)
Theorem C8_load_model_latest_version exn_str mlflow :
  (∀ e, search_registered_models mlflow = Raise e →
     load_model exn_str mlflow = (load_error_lines exn_str e, Stopped))
  ∧ (∀ found, search_registered_models mlflow = Ret found →
       filter (λ i, name i = "salario-model") found = [] →
       load_model exn_str mlflow =
         ([st_error "❌ Modelo 'salario-model' não encontrado no MLflow"],
          Stopped))
  ∧ (∀ found model0 others,
       search_registered_models mlflow = Ret found →
       filter (λ i, name i = "salario-model") found = model0 :: others →
       (latest_versions model0 = [] →
        load_model exn_str mlflow =
          (load_error_lines exn_str ValueError, Stopped))
       ∧ (latest_versions model0 ≠ [] →
          ∃ last_version,
            last_version ∈ version <$> latest_versions model0 ∧
            (∀ v, v ∈ version <$> latest_versions model0 →
                  (v ≤ last_version)%Z) ∧
            (∀ e, sklearn_load_model mlflow
                    ("models:/salario-model/" +:+ str_of_int last_version)
                    = Raise e →
                  load_model exn_str mlflow =
                    (load_error_lines exn_str e, Stopped)) ∧
            (∀ model, sklearn_load_model mlflow
                        ("models:/salario-model/" +:+ str_of_int last_version)
                        = Ret model →
                      load_model exn_str mlflow =
                        ([logger_info ("Modelo carregado com sucesso - versão "
                                       +:+ str_of_int last_version)],
                         Returned (model, last_version))))).
Proof.
  split; [|split].
  - intros e Hs. unfold load_model. by rewrite Hs.
  - intros found Hs Hnone. unfold load_model. rewrite Hs. simpl.
    by rewrite Hnone.
  - intros found model0 others Hs Hfound. split.
    + intros Hnil. unfold load_model. rewrite Hs. simpl. rewrite Hfound.
      by rewrite Hnil.
    + intros Hne.
      destruct (py_max_is_Ret (version <$> latest_versions model0))
        as [last_version Hmax].
      { by destruct (latest_versions model0). }
      exists last_version. destruct (py_max_spec _ _ Hmax) as [Hin Hub].
      split; [done|]. split; [done|].
      split; [intros e Hload|intros model Hload];
        unfold load_model; rewrite Hs; simpl; rewrite Hfound; simpl;
        rewrite Hmax; simpl; by rewrite Hload.
Qed.

Lemma C8_witness :
  ∃ last_version,
    last_version ∈ [3; 7; 5]%Z ∧
    (∀ v, v ∈ [3; 7; 5]%Z → (v ≤ last_version)%Z) ∧
    (∀ e, sklearn_load_model ex_registry
            ("models:/salario-model/" +:+ str_of_int last_version) = Raise e →
          load_model (λ _, "") ex_registry =
            (load_error_lines (λ _, "") e, Stopped)) ∧
    (∀ model, sklearn_load_model ex_registry
                ("models:/salario-model/" +:+ str_of_int last_version)
                = Ret model →
              load_model (λ _, "") ex_registry =
                ([logger_info ("Modelo carregado com sucesso - versão "
                               +:+ str_of_int last_version)],
                 Returned (model, last_version))).
Proof.
  refine (proj2 (proj2 (proj2 (C8_load_model_latest_version (λ _, "")
                                 ex_registry))
                   ex_registered _ [] eq_refl eq_refl) _).
  discriminate.
Defined.


(** C10. The age of every profile the form submits, which is the [idade]
    cell of the record handed to the selection of line 217, is an integer
    between the least [idade] of the Reference Dataset and the constant
    [100].  It is [30] until the user types an age, and the age typed
    whenever that lies within the two bounds.  The upper bound does not
    come from the dataset: an age of [100] is accepted whatever ages the
    dataset holds. *)
Theorem C10_age_bounds (data : list Row) inp p :
  salary_prediction_form data inp = Ret p →
  ∃ min_idade,
    series_min (col idade data) = Some min_idade ∧
    min_idade ∈ col idade data ∧
    (∀ x, x ∈ col idade data → (min_idade ≤ x)%Z) ∧
    (min_idade ≤ p_idade p ≤ 100)%Z ∧
    frame_get "idade" (user_data p) = Some (VInt (p_idade p)) ∧
    (in_idade inp = None → p_idade p = 30%Z) ∧
    (∀ v, in_idade inp = Some v → (min_idade ≤ v ≤ 100)%Z → p_idade p = v) ∧
    (in_idade inp = Some 100%Z → p_idade p = 100%Z).
Proof.
  unfold salary_prediction_form.
  destruct (idade_input data (in_idade inp)) as [age|e] eqn:Hage; [|done].
  intros [= <-]. simpl.
  destruct (idade_input_bounds _ _ _ Hage)
    as (m & Hmin & Hin & Hlb & Hb & Hdef & Htyped).
  exists m. repeat (split; [done|]). intros Hv. apply (Htyped _ Hv). lia.
Qed.

Lemma C10_witness :
  salary_prediction_form [ex_row] ex_input = Ret ex_profile ∧
  ∃ min_idade,
    series_min (col idade [ex_row]) = Some min_idade ∧
    min_idade ∈ col idade [ex_row] ∧
    (∀ x, x ∈ col idade [ex_row] → (min_idade ≤ x)%Z) ∧
    (min_idade ≤ p_idade ex_profile ≤ 100)%Z ∧
    frame_get "idade" (user_data ex_profile) = Some (VInt (p_idade ex_profile)) ∧
    (in_idade ex_input = None → p_idade ex_profile = 30%Z) ∧
    (∀ v, in_idade ex_input = Some v → (min_idade ≤ v ≤ 100)%Z →
          p_idade ex_profile = v) ∧
    (in_idade ex_input = Some 100%Z → p_idade ex_profile = 100%Z).
Proof.
  split; [reflexivity|].
  apply (C10_age_bounds [ex_row] ex_input ex_profile). reflexivity.
Defined.

(** * Further properties of the script *)

(** ** Loading the table and the model *)

(** X1. [load_template_data] returns the table [read_csv] gives and shows
    nothing; when the file is missing it shows the missing-file message and
    stops the script; on any other exception it shows that exception and
    stops the script.  It never lets an exception through to its caller. *)
Theorem load_template_data_cases exn_str read_csv :
  (∀ data, read_csv = Ret data →
     load_template_data exn_str read_csv = ([], Returned data))
  ∧ (read_csv = Raise FileNotFoundError →
     load_template_data exn_str read_csv =
       ([st_error "❌ Arquivo 'data/template.csv' não encontrado"], Stopped))
  ∧ (∀ e, read_csv = Raise e → e ≠ FileNotFoundError →
     load_template_data exn_str read_csv =
       ([st_error ("❌ Erro ao carregar dados: " +:+ exn_str e)], Stopped))
  ∧ (∀ e, outcome (load_template_data exn_str read_csv) ≠ Raised e).
Proof.
  unfold load_template_data. split; [|split; [|split]].
  - by intros data ->.
  - by intros ->.
  - intros e -> Hne. by destruct e.
  - intros e. destruct read_csv as [data|[]]; done.
Qed.

(** X2. [load_model] never raises.  When it returns a predictor and a
    version, the registry search returned, the version is the greatest of
    the versions listed for the first model named "salario-model", the
    predictor is what the load call at that version gave, and the only
    event is the success log.  When it stops the script, an [st.error] was
    shown first. *)
Theorem load_model_returns_latest exn_str mlflow :
  match outcome (load_model exn_str mlflow) with
  | Returned (model, last_version) =>
      ∃ found model0 others,
        search_registered_models mlflow = Ret found ∧
        filter (λ i, name i = "salario-model") found = model0 :: others ∧
        last_version ∈ version <$> latest_versions model0 ∧
        (∀ v, v ∈ version <$> latest_versions model0 → (v ≤ last_version)%Z) ∧
        sklearn_load_model mlflow
          ("models:/salario-model/" +:+ str_of_int last_version) = Ret model ∧
        trace (load_model exn_str mlflow) =
          [logger_info ("Modelo carregado com sucesso - versão "
                        +:+ str_of_int last_version)]
  | Stopped =>
      ∃ msg rest, trace (load_model exn_str mlflow) = st_error msg :: rest
  | Raised _ => False
  end.
Proof.
  unfold load_model.
  destruct (search_registered_models mlflow) as [found|e]; simpl.
  - destruct (filter _ found) as [|model0 others] eqn:Hfound; simpl.
    + by eexists _, _.
    + destruct (py_max _) as [last_version|e] eqn:Hmax; simpl.
      * destruct (sklearn_load_model mlflow _) as [model|e] eqn:Hload; simpl.
        -- destruct (py_max_spec _ _ Hmax) as [Hin Hub].
           by exists found, model0, others.
        -- by eexists _, _.
      * by eexists _, _.
  - by eexists _, _.
Qed.

(** ** The form *)

(** X3. The form renders, and gives a profile, exactly when some row of
    the Reference Dataset has an [idade] of at most [30], the default of
    the age widget.  On a dataset with no row building the form raises
    [ValueError] ([int] of a [nan] minimum); on one whose every age exceeds
    [30] the age widget refuses its default. *)
Theorem form_renders_iff (data : list Row) inp :
  ((∃ p, salary_prediction_form data inp = Ret p)
   ↔ ∃ r, r ∈ data ∧ (idade r ≤ 30)%Z)
  ∧ (data = [] → salary_prediction_form data inp = Raise ValueError)
  ∧ (data ≠ [] → (∀ r, r ∈ data → (30 < idade r)%Z) →
     salary_prediction_form data inp = Raise StreamlitAPIException).
Proof.
  pose proof (form_cases data inp) as Hcases.
  destruct (salary_prediction_form data inp) as [p|e].
  - split; [|split].
    + split; [done|by eexists].
    + intros ->. by destruct Hcases as (r & Hr%elem_of_nil & _).
    + intros _ Hall. destruct Hcases as (r & Hr & Hage).
      specialize (Hall r Hr). lia.
  - assert (¬ ∃ r, r ∈ data ∧ (idade r ≤ 30)%Z) as Hnone.
    { intros (r & Hr & Hage).
      destruct Hcases as [[-> _]|(_ & Hall & _)];
        [by apply elem_of_nil in Hr|]. specialize (Hall r Hr). lia. }
    split; [|split].
    + split; [by intros [p ?]|done].
    + intros ->. by destruct Hcases as [[_ ->]|[? _]].
    + intros Hne _. by destruct Hcases as [[? _]|(_ & _ & ->)].
Qed.

Lemma selectbox_first (options : list cell) :
  options ≠ [] → ∃ c, selectbox options 0 = VCell c ∧ c ∈ options.
Proof.
  destruct options as [|c options]; [done|]. intros _. exists c.
  split; [done|]. apply elem_of_cons. by left.
Qed.

(** Each select box offers exactly the values of its column, once. *)
Lemma select_boxes_spec (data : list Row) :
  Forall (λ box, NoDup (box.1 data) ∧ ∀ c, c ∈ box.1 data ↔ c ∈ col box.2 data)
    select_boxes.
Proof.
  unfold select_boxes, generos, pcds, ufs, cargos, niveis, temp_dados, temp_ti.
  repeat (apply List.Forall_cons;
          [split; [apply unique_spec|];
           intros c; simpl;
           by rewrite (proj2 (unique_spec _)), ?elem_of_sort_values|]).
  apply List.Forall_nil.
Qed.

(** X4. When the form renders, none of the seven select boxes is empty,
    and the value each holds before the user picks one, its first option,
    is a value of its column of the Reference Dataset. *)
Theorem rendered_form_has_options (data : list Row) inp p :
  salary_prediction_form data inp = Ret p →
  Forall (λ box, box.1 data ≠ [] ∧
                 ∃ c, selectbox (box.1 data) 0 = VCell c ∧ c ∈ col box.2 data)
    select_boxes.
Proof.
  intros Hform.
  pose proof (form_Ret_nonempty _ _ _ Hform) as Hne.
  assert (∀ f : Row → cell, col f data ≠ []) as Hcol.
  { intros f. unfold col. by destruct data. }
  eapply Forall_impl; [exact (select_boxes_spec data)|].
  intros [options column]. simpl.
  intros [_ Hin].
  assert (options data ≠ []) as Hopts.
  { specialize (Hcol column). destruct (col column data) as [|c s] eqn:Hs; [done|].
    intros Hnil. assert (c ∈ options data) as Hc
      by (apply Hin; apply elem_of_cons; by left).
    rewrite Hnil in Hc. by apply elem_of_nil in Hc. }
  split; [done|]. destruct (selectbox_first _ Hopts) as (c & Hsel & Hc).
  exists c. split; [done|]. by apply Hin.
Qed.

Lemma rendered_form_has_options_witness :
  salary_prediction_form [ex_row] ex_input = Ret ex_profile ∧
  Forall (λ box, box.1 [ex_row] ≠ [] ∧
                 ∃ c, selectbox (box.1 [ex_row]) 0 = VCell c ∧
                      c ∈ col box.2 [ex_row])
    select_boxes.
Proof.
  split; [reflexivity|].
  apply (rendered_form_has_options [ex_row] ex_input ex_profile). reflexivity.
Defined.

(** ** The order of the options *)

#[global] Instance cell_le_total : Total cell_le.
Proof.
  intros [|s] [|t]; simpl; auto. apply (total String.le).
Qed.

#[global] Instance cell_le_trans : Transitive cell_le.
Proof.
  intros [|s] [|t] [|u]; simpl; try done. apply (transitivity (R:=String.le)).
Qed.

#[global] Instance cell_le_antisymm : AntiSymm (=) cell_le.
Proof.
  intros [|s] [|t]; simpl; try done.
  intros Hst Hts. f_equal. by apply (anti_symm String.le).
Qed.

Lemma unique_from_sorted (s : list cell) : ∀ seen,
  StronglySorted cell_le s → StronglySorted cell_le (unique_from seen s).
Proof.
  induction s as [|c s IH]; intros seen Hs; simpl; [constructor|].
  apply StronglySorted_inv in Hs as [Hs Hc].
  case_decide; [by apply IH|]. constructor; [by apply IH|].
  apply Forall_forall. intros x [Hx _]%unique_from_spec.
  by eapply Forall_forall in Hc.
Qed.

Lemma sorted_NoDup_strict (l : list cell) :
  StronglySorted cell_le l → NoDup l → StronglySorted cell_lt l.
Proof.
  induction 1 as [|c l Hl IH Hc]; [constructor|].
  intros [Hnin Hnd]%NoDup_cons. constructor.
  - by apply IH.
  - apply Forall_forall. intros x Hx. split.
    + by eapply Forall_forall in Hc.
    + by intros ->.
Qed.

(** [sort_values().unique()] is strictly increasing. *)
Lemma unique_sort_values_increasing (s : list cell) :
  StronglySorted cell_lt (unique (sort_values s)).
Proof.
  apply sorted_NoDup_strict; [|apply unique_spec].
  apply unique_from_sorted, StronglySorted_merge_sort; apply _.
Qed.

(** X5. The five select boxes built with [sort_values().unique()] (state,
    job, seniority and the two experience ranges) list their options in
    strictly increasing order: an option placed before another is smaller
    and is not the missing value, which can only come last. *)
Theorem sorted_select_boxes_increase (data : list Row) :
  Forall (λ options : list Row → list cell, StronglySorted cell_lt (options data))
    [ufs; cargos; niveis; temp_dados; temp_ti]
  ∧ ∀ options, options ∈ [ufs; cargos; niveis; temp_dados; temp_ti] →
      ∀ i j a b, options data !! i = Some a → options data !! j = Some b →
        i < j → cell_lt a b ∧ a ≠ NaN.
Proof.
  assert (Forall (λ options : list Row → list cell,
                    StronglySorted cell_lt (options data))
            [ufs; cargos; niveis; temp_dados; temp_ti]) as Hsorted.
  { repeat constructor; apply unique_sort_values_increasing. }
  split; [done|]. intros options Hopt i j a b Hi Hj Hij.
  eapply Forall_forall in Hsorted; [|done]. simpl in Hsorted.
  assert (cell_lt a b) as Hlt.
  { apply (take_drop_middle _ _ _) in Hi as Hsplit. rewrite <-Hsplit in Hsorted.
    apply StronglySorted_app_1_r in Hsorted.
    apply StronglySorted_inv in Hsorted as [_ Hall].
    eapply Forall_forall in Hall; [done|].
    apply list_elem_of_lookup. exists (j - S i).
    rewrite lookup_drop. by replace (S i + (j - S i)) with j by lia. }
  split; [done|]. intros ->. destruct Hlt as [Hle Hne]. by destruct b.
Qed.

(** ** The sidebar and the statistics *)

Lemma unique_from_length (s : list cell) : ∀ seen,
  length (unique_from seen s) ≤ length s.
Proof.
  induction s as [|c s IH]; intros seen; simpl; [done|].
  case_decide; [specialize (IH seen)|specialize (IH (c :: seen))]; simpl; lia.
Qed.

(** [nunique()] is the number of values [unique()] gives, [NaN] apart,
    in whatever order the series comes. *)
Lemma nunique_options (s s' : list cell) :
  (∀ c, c ∈ s' ↔ c ∈ s) →
  nunique s = len (filter (λ c, c ≠ NaN) (unique s')).
Proof.
  intros Hsame. unfold nunique, len. f_equal. apply Permutation_length.
  apply NoDup_Permutation.
  - apply unique_spec.
  - apply NoDup_filter, unique_spec.
  - intros c. rewrite (proj2 (unique_spec _)), !list_elem_of_filter,
      (proj2 (unique_spec _)), Hsame. done.
Qed.

(** X6. The sidebar shows the version, the number of rows, and two
    counts that agree with the form: "Cargos Únicos" and "UFs
    Representadas" are the numbers of options, the missing value apart, of
    the job and the state select boxes.  Neither count exceeds the number
    of rows. *)
Theorem sidebar_counts_options model_version (data : list Row) :
  sidebar model_version data =
    ([ st_info ("**Versão:** " +:+ str_of_int model_version);
       st_metric "Total de Registros" (MInt (len data));
       st_metric "Cargos Únicos"
         (MInt (len (filter (λ c, c ≠ NaN) (cargos data))));
       st_metric "UFs Representadas"
         (MInt (len (filter (λ c, c ≠ NaN) (ufs data)))) ],
     Returned tt)
  ∧ (0 ≤ nunique (col cargoAtual data) ≤ len data)%Z
  ∧ (0 ≤ nunique (col ufOndeMora data) ≤ len data)%Z.
Proof.
  assert (∀ f : Row → cell, (0 ≤ nunique (col f data) ≤ len data)%Z) as Hb.
  { intros f. unfold nunique, len, unique.
    pose proof (unique_from_length (filter (λ c, c ≠ NaN) (col f data)) []).
    pose proof (length_filter (λ c, c ≠ NaN) (col f data)).
    unfold col in *. rewrite length_fmap in *. lia. }
  split; [|by split].
  unfold sidebar, cargos, ufs.
  rewrite <-(nunique_options (col cargoAtual data)
               (sort_values (col cargoAtual data)))
    by (intros c; apply elem_of_sort_values).
  by rewrite <-(nunique_options (col ufOndeMora data)
                  (sort_values (col ufOndeMora data)))
    by (intros c; apply elem_of_sort_values).
Qed.

Lemma py_eq_is_text c v : py_eq c v → is_text v.
Proof. intros [Hc ->]. destruct c as [|s]; [done|]. by exists s. Qed.

(** X7. [similar_count] lies between [0] and the number of rows; it
    exceeds neither the number of rows with the profile's seniority nor
    the number of rows with the profile's state; and it is [0] as soon as
    one of the two submitted values is not a text (a missing value never
    equals anything). *)
Theorem similar_count_bounds (data : list Row) nv uf :
  (0 ≤ similar_count data nv uf ≤ len data)%Z
  ∧ (similar_count data nv uf
     ≤ Z.of_nat (length (filter (λ r, py_eq (nivel r) nv) data)))%Z
  ∧ (similar_count data nv uf
     ≤ Z.of_nat (length (filter (λ r, py_eq (ufOndeMora r) uf) data)))%Z
  ∧ (¬ is_text nv ∨ ¬ is_text uf → similar_count data nv uf = 0%Z).
Proof.
  unfold similar_count, len. rewrite similar_profiles_filter.
  split; [|split; [|split]].
  - pose proof (length_filter (λ r, py_eq (nivel r) nv ∧ py_eq (ufOndeMora r) uf)
                  data). lia.
  - rewrite <-(list_filter_filter_l (λ r, py_eq (nivel r) nv ∧ _)
                 (λ r, py_eq (nivel r) nv)) by (by intros r [? ?]).
    pose proof (length_filter (λ r, py_eq (nivel r) nv ∧ py_eq (ufOndeMora r) uf)
                  (filter (λ r, py_eq (nivel r) nv) data)). lia.
  - rewrite <-(list_filter_filter_l (λ r, _ ∧ py_eq (ufOndeMora r) uf)
                 (λ r, py_eq (ufOndeMora r) uf)) by (by intros r [? ?]).
    pose proof (length_filter (λ r, py_eq (nivel r) nv ∧ py_eq (ufOndeMora r) uf)
                  (filter (λ r, py_eq (ufOndeMora r) uf) data)). lia.
  - intros Hmissing.
    destruct (filter _ data) as [|r rows] eqn:Hrows; [done|exfalso].
    assert (r ∈ filter (λ r, py_eq (nivel r) nv ∧ py_eq (ufOndeMora r) uf) data)
      as [[Hn Hu] _]%list_elem_of_filter
      by (rewrite Hrows; apply elem_of_cons; by left).
    apply py_eq_is_text in Hn, Hu. tauto.
Qed.

(** ** The share at its extremes and as it is shown *)

Section share_extremes.
Local Open Scope Z_scope.

(** A count divided by itself is exactly [1.0]. *)
Lemma SFdiv_self (p : positive) :
  SFdiv prec emax (int_as_float false p) (int_as_float false p) = of_int 1.
Proof.
  unfold SFdiv, int_as_float, SFdiv_core_binary.
  replace (Zdigits2 (Z.pos p) + 0 - (Zdigits2 (Z.pos p) + 0)) with 0 by lia.
  change (Z.min (fexp prec emax 0) (0 - 0)) with (-53).
  change (0 - 0 - -53) with 53. cbv iota beta.
  rewrite Z.shiftl_mul_pow2 by lia.
  assert (Z.div_eucl (Z.pos p * 2 ^ 53) (Z.pos p) = (2 ^ 53, 0)) as ->.
  { pose proof (Z.div_mul (2 ^ 53) (Z.pos p) ltac:(lia)) as Hq.
    pose proof (Z.mod_mul (2 ^ 53) (Z.pos p) ltac:(lia)) as Hr.
    rewrite (Z.mul_comm (2 ^ 53)) in Hq, Hr. unfold Z.div, Z.modulo in Hq, Hr.
    destruct (Z.div_eucl (Z.pos p * 2 ^ 53) (Z.pos p)) as [q r].
    by rewrite Hq, Hr. }
  rewrite new_location_0. reflexivity.
Qed.

Lemma int_truediv_self n : 0 < n → int_truediv n n = Ret (of_int 1).
Proof.
  destruct n as [|p|p]; [lia| |lia]. intros _. unfold int_truediv.
  change (Z.pos p <? 0) with false.
  change (Z.to_pos (Z.abs (Z.pos p))) with p. by rewrite SFdiv_self.
Qed.

Lemma int_truediv_zero_count n : 0 < n → int_truediv 0 n = Ret (S754_zero false).
Proof. destruct n as [|p|p]; [lia| |lia]. done. Qed.

End share_extremes.

(** X8. On a Reference Dataset with rows, the job share is exactly [0.0],
    shown as "0.0%", when no row has the profile's job, and exactly
    [100.0], shown as "100.0%", when every row has it: the float division
    and product lose nothing at the two ends. *)
Theorem job_share_extremes (data : list Row) cargo :
  data ≠ [] →
  ((∀ r, r ∈ data → ¬ py_eq (cargoAtual r) cargo) →
   cargo_percentage data cargo = Ret (S754_zero false) ∧
   cargo_percentage_text (S754_zero false) = "0.0%")
  ∧ ((∀ r, r ∈ data → py_eq (cargoAtual r) cargo) →
     cargo_percentage data cargo = Ret (of_int 100) ∧
     cargo_percentage_text (of_int 100) = "100.0%").
Proof.
  intros Hne.
  assert (0 < len data)%Z as Hlen.
  { unfold len. destruct data; [done|simpl; lia]. }
  split.
  - intros Hnone. split; [|done].
    assert (cargo_count data cargo = 0%Z) as Hcount.
    { rewrite cargo_count_filter.
      destruct (filter _ data) as [|r rows] eqn:Hrows; [done|exfalso].
      assert (r ∈ filter (λ r, py_eq (cargoAtual r) cargo) data)
        as [Hm Hin]%list_elem_of_filter
        by (rewrite Hrows; apply elem_of_cons; by left).
      by apply (Hnone r). }
    unfold cargo_percentage. by rewrite Hcount, int_truediv_zero_count.
  - intros Hall. split; [|by vm_compute].
    assert (cargo_count data cargo = len data) as Hcount.
    { rewrite cargo_count_filter. unfold len. do 2 f_equal.
      clear Hne Hlen. induction data as [|r data IH]; [done|].
      rewrite filter_cons_True by (apply Hall, elem_of_cons; by left).
      f_equal. apply IH. intros r' Hr'. apply Hall, elem_of_cons. by right. }
    unfold cargo_percentage. rewrite Hcount, int_truediv_self by done.
    by vm_compute.
Qed.

Lemma job_share_extremes_witness :
  cargo_percentage [ex_row] (p_cargo ex_profile) = Ret (of_int 100) ∧
  cargo_percentage_text (of_int 100) = "100.0%".
Proof.
  refine (proj2 (job_share_extremes [ex_row] (p_cargo ex_profile) _) _).
  - discriminate.
  - intros r Hr. apply list_elem_of_singleton in Hr. subst r.
    split; [discriminate|reflexivity].
Defined.

(** ** The share as it is shown *)

Lemma round_half_even_bounds n d B :
  (0 < d → 0 ≤ n ≤ B * d → 0 ≤ round_half_even n d ≤ B)%Z.
Proof.
  intros Hd Hn. unfold round_half_even.
  pose proof (Z.div_mod n d ltac:(lia)) as Heq.
  pose proof (Z.mod_pos_bound n d Hd) as Hr.
  assert (0 ≤ n / d)%Z as Hq0 by (apply Z.div_pos; lia).
  assert (n / d ≤ B)%Z as HqB by (apply Z.div_le_upper_bound; lia).
  destruct (Z.compare_spec (2 * (n mod d)) d) as [Hc|Hc|Hc].
  - destruct (Z.even (n / d)); [lia|]. nia.
  - lia.
  - nia.
Qed.

Lemma tenths_bounds m e :
  bounded_by 100 (S754_finite false m e) → (0 ≤ tenths m e ≤ 1000)%Z.
Proof.
  simpl. intros [He Hm]. destruct e as [|p|p]; [|lia|].
  - simpl in *. lia.
  - unfold tenths. apply round_half_even_bounds; [lia|].
    rewrite Pos2Z.inj_pow. change (- Z.neg p)%Z with (Z.pos p) in Hm. lia.
Qed.

Lemma digit_length d : (0 ≤ d < 10)%Z → String.length (str_of_int d) = 1.
Proof.
  intros Hd.
  assert (d = 0 ∨ d = 1 ∨ d = 2 ∨ d = 3 ∨ d = 4 ∨ d = 5 ∨ d = 6 ∨ d = 7
          ∨ d = 8 ∨ d = 9)%Z as Hcases by lia.
  repeat (destruct Hcases as [->|Hcases]; [done|]). by subst d.
Qed.

(** X9. On a Reference Dataset with rows, the text of the
    "Representatividade do Cargo" metric is a number of tenths [n] between
    [0] and [1000] written as its integer part, a point, one decimal digit
    and a percent sign: between "0.0%" and "100.0%", never signed, never
    [nan] or [inf]. *)
Theorem job_share_text_format (data : list Row) cargo :
  data ≠ [] →
  ∃ x n, cargo_percentage data cargo = Ret x ∧ (0 ≤ n ≤ 1000)%Z ∧
    cargo_percentage_text x =
      (str_of_int (n / 10) +:+ "." +:+ str_of_int (n mod 10)) +:+ "%" ∧
    String.length (str_of_int (n mod 10)) = 1.
Proof.
  intros Hne.
  destruct (cargo_percentage_nonempty data cargo Hne) as (share & _ & Hb & ->).
  apply mul_100_bounded in Hb. exists (mul share (of_int 100)).
  destruct (mul share (of_int 100)) as [[]| | |[] m e]; try done.
  - exists 0%Z. by repeat split.
  - exists (tenths m e). split; [done|]. split; [by apply tenths_bounds|].
    split; [done|]. apply digit_length, Z.mod_pos_bound. lia.
Qed.

Lemma job_share_text_format_witness :
  ∃ x n, cargo_percentage ex_hundred_rows (p_cargo ex_profile) = Ret x ∧
    (0 ≤ n ≤ 1000)%Z ∧
    cargo_percentage_text x =
      (str_of_int (n / 10) +:+ "." +:+ str_of_int (n mod 10)) +:+ "%" ∧
    String.length (str_of_int (n mod 10)) = 1.
Proof.
  apply (job_share_text_format ex_hundred_rows (p_cargo ex_profile)).
  vm_compute. discriminate.
Defined.

(** ** Cutting the label *)

Lemma split_nonempty {A} `{EqDecision A} (sep s : list A) : PyStr.split sep s ≠ [].
Proof.
  destruct (PyStr.split_last_Some sep s) as [p Hp]. intros Hnil.
  by rewrite Hnil in Hp.
Qed.

Lemma join_split {A} `{EqDecision A} (sep s : list A) :
  sep ≠ [] → py_join sep (PyStr.split sep s) = s.
Proof.
  intros Hne. induction s as [s IH] using (induction_ltof1 _ (@length A)).
  unfold ltof in IH. rewrite PyStr.split_step by done.
  destruct (PyStr.find sep s) as [pos|] eqn:Hf; [|done].
  pose proof (PyStr.find_Some_bound _ _ _ Hf) as Hb.
  pose proof (PyStr.sep_length_pos _ Hne) as Hlen.
  destruct (PyStr.find_Some _ _ _ Hf) as [[post Hpost] _].
  cbn [py_join].
  destruct (PyStr.split sep (drop (pos + length sep) s)) as [|p ps] eqn:Hs;
    [by apply split_nonempty in Hs|].
  rewrite <-Hs, IH by (rewrite length_drop; lia).
  rewrite <-(take_drop pos s) at 3. f_equal.
  rewrite <-drop_drop, Hpost, drop_app_length. done.
Qed.

Lemma split_pieces_no_occ {A} `{EqDecision A} (sep s : list A) :
  sep ≠ [] →
  Forall (λ piece, ∀ j, ¬ PyStr.occ sep piece j) (PyStr.split sep s).
Proof.
  intros Hne. induction s as [s IH] using (induction_ltof1 _ (@length A)).
  unfold ltof in IH. rewrite PyStr.split_step by done.
  pose proof (PyStr.sep_length_pos _ Hne) as Hlen.
  destruct (PyStr.find sep s) as [pos|] eqn:Hf.
  - pose proof (PyStr.find_Some_bound _ _ _ Hf) as Hb.
    destruct (PyStr.find_Some _ _ _ Hf) as [_ Hfirst].
    constructor; [|apply IH; rewrite length_drop; lia].
    intros j Hocc. pose proof (PyStr.occ_bound _ _ _ Hne Hocc) as Hj.
    rewrite length_take in Hj. apply (Hfirst j); [lia|].
    destruct Hocc as [post Hpost]. unfold PyStr.occ.
    rewrite <-(take_drop pos s), drop_app_le by (rewrite length_take; lia).
    rewrite Hpost, <-app_assoc. by eexists.
  - constructor; [|done]. by apply PyStr.find_None.
Qed.

Lemma str_join_chars (parts : list (list ascii)) :
  str_join "- " (string_of_list_ascii <$> parts)
  = string_of_list_ascii (py_join sep_chars parts).
Proof.
  induction parts as [|p ps IH]; [done|]. cbn [fmap list_fmap py_join str_join].
  destruct ps as [|p' ps]; [done|].
  change (string_of_list_ascii <$> p' :: ps) with
    (string_of_list_ascii p' :: (string_of_list_ascii <$> ps)) in *.
  cbn [fmap list_fmap] in IH. rewrite IH, !of_chars_app. done.
Qed.

(** X10. Line 218 never fails: the label splits into pieces that, joined
    again with "- ", give the label back, none of which contains "- "; the
    bracket is the last of them, and cutting a bracket again leaves it as
    it is. *)
Theorem label_split_round_trip (label : string) :
  ∃ parts bracket,
    str_split "- " label = Ret parts ∧
    str_join "- " parts = label ∧
    Forall (λ piece, ∀ i, ¬ occurs_at "- " piece i) parts ∧
    last parts = Some bracket ∧
    salario_limpo label = Ret bracket ∧
    salario_limpo bracket = Ret bracket.
Proof.
  destruct (salario_limpo_last label) as (p & Hp & Hclean).
  exists (string_of_list_ascii <$>
            PyStr.split sep_chars (list_ascii_of_string label)),
         (string_of_list_ascii p).
  split; [done|]. split; [|split; [|split; [|split]]].
  - rewrite str_join_chars, join_split by done.
    apply string_of_list_ascii_of_string.
  - apply Forall_fmap.
    eapply Forall_impl; [by apply (split_pieces_no_occ sep_chars)|].
    intros piece Hno i Hocc. apply (Hno i).
    apply occurs_at_occ in Hocc.
    by rewrite list_ascii_of_string_of_list_ascii in Hocc.
  - by rewrite fmap_last, Hp.
  - done.
  - destruct (salario_limpo_after_last (string_of_list_ascii p))
      as (b & Hb & [(pre & Hpre & _)|[_ ->]]); [exfalso|done].
    apply (PyStr.split_last_no_occ _ _ _ sep_chars_ne Hp (String.length pre)).
    rewrite <-(list_ascii_of_string_of_list_ascii p).
    apply occurs_at_occ. by exists pre, b.
Qed.

(** ** The record handed to the predictor *)





(** ** One run of the script *)

(** X12. How one run of the script ends.  It runs to its end exactly when
    the model loaded, the table was read and some row has an [idade] of at
    most [30]; it is stopped by [st.stop()] exactly when the model did not
    load or the table could not be read; and the only exceptions that
    escape it come from building the form: [ValueError] on a table with no
    row, the age widget's exception on a table whose every age exceeds
    [30]. *)
Theorem app_py_ending exn_str mlflow read_csv inp :
  match outcome (app_py exn_str mlflow read_csv inp) with
  | Returned _ =>
      ∃ model model_version data,
        outcome (load_model exn_str mlflow) = Returned (model, model_version) ∧
        read_csv = Ret data ∧ ∃ r, r ∈ data ∧ (idade r ≤ 30)%Z
  | Stopped =>
      outcome (load_model exn_str mlflow) = Stopped ∨ ∃ e, read_csv = Raise e
  | Raised e =>
      ∃ model model_version data,
        outcome (load_model exn_str mlflow) = Returned (model, model_version) ∧
        read_csv = Ret data ∧
        ((data = [] ∧ e = ValueError)
         ∨ (data ≠ [] ∧ (∀ r, r ∈ data → (30 < idade r)%Z) ∧
            e = StreamlitAPIException))
  end.
Proof.
  destruct (app_py_run exn_str mlflow read_csv inp) as (t & _ & Hrun).
  destruct (outcome (load_model exn_str mlflow)) as [[model v]|e|] eqn:Hload;
    [|done|].
  - destruct read_csv as [data|e].
    + pose proof (form_cases data inp) as Hform.
      destruct (salary_prediction_form data inp) as [p|e].
      * rewrite Hrun. destruct (in_submitted inp); simpl; by exists model, v, data.
      * rewrite Hrun. simpl. by exists model, v, data.
    + rewrite Hrun. simpl. right. by exists e.
  - destruct read_csv; rewrite Hrun; simpl; by left.
Qed.

(** X13. One run of the script calls the predictor at most once; when the
    form was not submitted it calls it not at all, shows no bracket and
    logs no prediction error. *)
Theorem app_py_predicts_on_submission_only exn_str mlflow read_csv inp :
  length (predict_calls (trace (app_py exn_str mlflow read_csv inp))) ≤ 1
  ∧ (in_submitted inp = false →
     predict_calls (trace (app_py exn_str mlflow read_csv inp)) = [] ∧
     shown_brackets (trace (app_py exn_str mlflow read_csv inp)) = [] ∧
     logged_errors (trace (app_py exn_str mlflow read_csv inp)) = []).
Proof.
  destruct (app_py_run exn_str mlflow read_csv inp) as (t & Hq & Hrun).
  destruct (quiet_trace t Hq) as (Hq1 & Hq2 & Hq3).
  assert (∀ (r : ending unit),
    length (predict_calls (trace (t, r))) ≤ 1 ∧
    (in_submitted inp = false →
     predict_calls (trace (t, r)) = [] ∧ shown_brackets (trace (t, r)) = [] ∧
     logged_errors (trace (t, r)) = [])) as Hquiet.
  { intros r. simpl. rewrite Hq1. split; [simpl; lia|done]. }
  destruct (outcome (load_model exn_str mlflow)) as [[model v]|e|];
    [|done|destruct read_csv; rewrite Hrun; apply Hquiet].
  destruct read_csv as [data|e]; [|rewrite Hrun; apply Hquiet].
  destruct (salary_prediction_form data inp) as [p|e];
    [|rewrite Hrun; apply Hquiet].
  rewrite Hrun. destruct (in_submitted inp); [|apply Hquiet].
  split; [|done]. simpl. unfold predict_calls. rewrite omap_app.
  fold (predict_calls t). rewrite Hq1. simpl.
  fold (predict_calls (trace (on_submit exn_str model data p (in_show_visual inp)))).
  rewrite on_submit_predict_calls. apply predict_bracket_calls.
Qed.

(** X14. A run in which the form was submitted and which runs to its end
    shows either one bracket and no prediction error, or no bracket and
    one prediction error, whose log line is then the last event: within a
    run a bracket is never followed by an error.  A run that ends earlier
    shows neither. *)
Theorem app_py_bracket_or_error exn_str mlflow read_csv inp :
  in_submitted inp = true →
  match outcome (app_py exn_str mlflow read_csv inp) with
  | Returned _ =>
      (∃ bracket,
         shown_brackets (trace (app_py exn_str mlflow read_csv inp)) =
           [bracket_line bracket] ∧
         logged_errors (trace (app_py exn_str mlflow read_csv inp)) = [])
      ∨ (∃ msg,
           shown_brackets (trace (app_py exn_str mlflow read_csv inp)) = [] ∧
           logged_errors (trace (app_py exn_str mlflow read_csv inp)) =
             ["Erro na predição: " +:+ msg] ∧
           last (trace (app_py exn_str mlflow read_csv inp)) =
             Some (logger_error ("Erro na predição: " +:+ msg)))
  | _ =>
      shown_brackets (trace (app_py exn_str mlflow read_csv inp)) = [] ∧
      logged_errors (trace (app_py exn_str mlflow read_csv inp)) = []
  end.
Proof.
  intros Hsub.
  destruct (app_py_run exn_str mlflow read_csv inp) as (t & Hq & Hrun).
  destruct (quiet_trace t Hq) as (Hq1 & Hq2 & Hq3).
  destruct (outcome (load_model exn_str mlflow)) as [[model v]|e|];
    [|done|by destruct read_csv; rewrite Hrun].
  destruct read_csv as [data|e]; [|by rewrite Hrun].
  destruct (salary_prediction_form data inp) as [p|e] eqn:Hform;
    [|by rewrite Hrun].
  rewrite Hrun, Hsub. simpl.
  pose proof (on_submit_nonempty exn_str model data p (in_show_visual inp)
                (form_Ret_nonempty _ _ _ Hform)) as Hreport.
  destruct (predict_bracket_calls model p) as (Hp1 & Hp2 & _).
  destruct (predict_bracket model p) as [tp [bracket|e|]]; [| |done];
    simpl in Hp1, Hp2.
  - left. destruct Hreport as [share ->]. exists bracket.
    unfold shown_brackets, logged_errors in *. simpl.
    rewrite !omap_app, Hq2, Hq3, Hp1, Hp2. simpl.
    by destruct (in_show_visual inp).
  - right. rewrite Hreport. exists (exn_str e).
    unfold shown_brackets, logged_errors in *. simpl.
    rewrite !omap_app, Hq2, Hq3, Hp1, Hp2. split; [done|]. split; [done|].
    unfold error_lines. by rewrite !last_app.
Qed.

Lemma app_py_bracket_or_error_witness :
  in_submitted ex_input = true ∧
  let run := app_py (λ _, "") ex_registry (Ret [ex_row]) ex_input in
  match outcome run with
  | Returned _ =>
      (∃ bracket,
         shown_brackets (trace run) = [bracket_line bracket] ∧
         logged_errors (trace run) = [])
      ∨ (∃ msg,
           shown_brackets (trace run) = [] ∧
           logged_errors (trace run) = ["Erro na predição: " +:+ msg] ∧
           last (trace run) = Some (logger_error ("Erro na predição: " +:+ msg)))
  | _ => shown_brackets (trace run) = [] ∧ logged_errors (trace run) = []
  end.
Proof.
  split; [reflexivity|].
  apply (app_py_bracket_or_error (λ _, "") ex_registry (Ret [ex_row]) ex_input).
  reflexivity.
Defined.
